(** * md-OpenMP_12.c: an all-pairs gravitational N-body integrator

    A shallow embedding of [src/md-OpenMP_12.c] and the properties of it that
    the specification states.  The program is translated once, over an
    abstract arithmetic of the C type [double]; the arithmetic is then
    instantiated twice: with the real numbers (exact arithmetic, in which the
    algebraic statements are proved) and with IEEE-754 binary64 (the kernel's
    primitive floats, in which the program runs).

    The OpenMP pragmas are not modelled: every loop is executed in index
    order, which is the meaning of the program when the pragmas are ignored. *)

From Stdlib Require Import ZArith QArith Qreals Reals Lra Lia Floats List String.
From stdpp Require Import base decidable list.

Set Default Proof Using "Type".

(** ** Arithmetic of [double] *)

(** The operations the program applies to values of type [double].
    [dlit q] is the value of the decimal literal that denotes the rational
    [q]; [dof_int] is the conversion [(double)n] of an [int]. *)
Class Arith (D : Type) : Type := {
  dlit : Q -> D;
  dof_int : Z -> D;
  dadd : D -> D -> D;
  dsub : D -> D -> D;
  dmul : D -> D -> D;
  ddiv : D -> D -> D;
  dneg : D -> D;
  dsqrt : D -> D;
  dgt : D -> D -> bool;
}.

Declare Scope dbl_scope.
Delimit Scope dbl_scope with dbl.
Infix "+" := dadd : dbl_scope.
Infix "-" := dsub : dbl_scope.
Infix "*" := dmul : dbl_scope.
Infix "/" := ddiv : dbl_scope.
Notation "- a" := (dneg a) : dbl_scope.
Infix ">?" := dgt (at level 70, no associativity) : dbl_scope.

(** ** Control structure *)

(** [for (i = 0; i < n; i++) s = body i s]. *)
Definition for_loop {S : Type} (n : nat) (body : nat -> S -> S) (s : S) : S :=
  fold_left (fun s i => body i s) (seq 0 n) s.

(** ** Memory: the eleven arrays of [main] *)

(** One name per [double *] variable of [main]. *)
Inductive arr : Set :=
  | a_mass | a_x | a_y | a_z | a_vx | a_vy | a_vz
  | a_old_x | a_old_y | a_old_z | a_old_mass.

#[global] Instance arr_eq_dec : EqDecision arr.
Proof. solve_decision. Defined.

(** A [double com[3]]. *)
Definition vec3 (D : Type) : Type := (D * D * D)%type.

(** What the program prints.  The text of a message is its constructor; the
    numbers a message carries are its arguments (the wall-clock time printed
    by the last but one message is not modelled). *)
Inductive event (D : Type) : Type :=
  | PrintInitializing (num : nat)
  | PrintMallocError
  | PrintMalloced
  | PrintInitError
  | PrintInitComplete
  | PrintCom0 (com : vec3 D)
  | PrintIntegrate (timesteps : nat)
  | PrintStep (time : nat) (com : vec3 D)
  | PrintElapsed (num timesteps : nat)
  | PrintCom (com : vec3 D).

Arguments PrintInitializing {D} num.
Arguments PrintMallocError {D}.
Arguments PrintMalloced {D}.
Arguments PrintInitError {D}.
Arguments PrintInitComplete {D}.
Arguments PrintCom0 {D} com.
Arguments PrintIntegrate {D} timesteps.
Arguments PrintStep {D} time com.
Arguments PrintElapsed {D} num timesteps.
Arguments PrintCom {D} com.

Definition is_init_error {D : Type} (e : event D) : bool :=
  match e with PrintInitError => true | _ => false end.

Definition is_step_report {D : Type} (e : event D) : bool :=
  match e with PrintStep _ _ => true | _ => false end.

(** What the program takes from its platform: whether [malloc] succeeds,
    the constant [RAND_MAX] of <stdlib.h>, and the sequence of values that
    successive calls of [rand()] return. *)
Record env : Set := {
  malloc_ok : bool;
  RAND_MAX : Z;
  rand_seq : nat -> Z;
}.

(** [rand()]: the state [k] counts the calls made so far. *)
Definition rand (e : env) (k : nat) : Z * nat := (rand_seq e k, S k).

(** <stdlib.h> promises [RAND_MAX >= 32767] and [0 <= rand() <= RAND_MAX]. *)
Definition env_ok (e : env) : Prop :=
  (32767 <= RAND_MAX e)%Z /\ forall k, (0 <= rand_seq e k <= RAND_MAX e)%Z.

(** #define NUM 20000, #define TS 10 *)
Definition NUM : nat := 20000.
Definition TS : nat := 10.

Section Program.
Context {D : Type} {A : Arith D}.
Local Open Scope dbl_scope.

Definition mem : Type := arr -> list D.

(** [a[i]] as an rvalue.  The program reads inside the arrays only; the
    value given to a read outside is never used. *)
Definition rd (l : list D) (i : nat) : D := default (dlit 0) (l !! i).
Definition ld (a : arr) (i : nat) (m : mem) : D := rd (m a) i.

(** [a[i] = v]. *)
Definition st (a : arr) (i : nat) (v : D) (m : mem) : mem :=
  fun b => if decide (b = a) then <[i := v]> (m b) else m b.

(** [malloc(num * sizeof(double))], eleven times.  The contents of fresh
    storage are indeterminate; the program writes every element before it
    reads it (see [init_sampling_order], [LOOP1_snapshot] and
    [calc_centre_mass_single_pass]). *)
Definition malloc_all (num : nat) : mem := fun _ => replicate num (dlit 0).

(** *** [init] (lines 162-179) *)

Definition init_body (e : env) (i : nat) (s : mem * nat) : mem * nat :=
  let min_pos := - dlit 50 in
  let mult := dlit 100 in
  let maxVel := dlit 5 in
  let recip := dlit 1 / dof_int (RAND_MAX e) in
  let '(m, k) := s in
  let '(r, k) := rand e k in
  let m := st a_x i (min_pos + mult * dof_int r * recip) m in
  let '(r, k) := rand e k in
  let m := st a_y i (min_pos + mult * dof_int r * recip) m in
  let '(r, k) := rand e k in
  let m := st a_z i (dlit 0 + mult * dof_int r * recip) m in
  let '(r, k) := rand e k in
  let m := st a_vx i (- maxVel + dlit 2 * maxVel * dof_int r * recip) m in
  let '(r, k) := rand e k in
  let m := st a_vy i (- maxVel + dlit 2 * maxVel * dof_int r * recip) m in
  let '(r, k) := rand e k in
  let m := st a_vz i (- maxVel + dlit 2 * maxVel * dof_int r * recip) m in
  let '(r, k) := rand e k in
  let m := st a_mass i (dlit 0.1 + dof_int 10 * dof_int r * recip) m in
  (m, k).

(** Returns the return code, the memory and the state of [rand]. *)
Definition init (e : env) (num : nat) (m : mem) (k : nat) : Z * mem * nat :=
  let '(m, k) := for_loop num (init_body e) (m, k) in
  (0%Z, m, k).

(** *** [calc_centre_mass] (lines 191-206) *)

Definition com_body (x y z mass : list D) (i : nat) (com : vec3 D) : vec3 D :=
  let '(com0, com1, com2) := com in
  (com0 + rd mass i * rd x i,
   com1 + rd mass i * rd y i,
   com2 + rd mass i * rd z i).

(** The body of the loop over [axis]. *)
Definition com_pass (x y z mass : list D) (totalMass : D) (N : nat)
    (com : vec3 D) : vec3 D :=
  let com : vec3 D := (dlit 0, dlit 0, dlit 0) in
  let '(com0, com1, com2) := for_loop N (com_body x y z mass) com in
  (com0 / totalMass, com1 / totalMass, com2 / totalMass).

Definition calc_centre_mass (com : vec3 D) (x y z mass : list D)
    (totalMass : D) (N : nat) : vec3 D :=
  for_loop 2 (fun axis com => com_pass x y z mass totalMass N com) com.

(** *** The time step (lines 92-141) *)

Definition GRAVCONST : D := dlit 0.001.

(** LOOP1: the snapshot. *)
Definition LOOP1_body (i : nat) (m : mem) : mem :=
  let m := st a_old_x i (ld a_x i m) m in
  let m := st a_old_y i (ld a_y i m) m in
  let m := st a_old_z i (ld a_z i m) m in
  st a_old_mass i (ld a_mass i m) m.

Definition LOOP1 (num : nat) (m : mem) : mem := for_loop num LOOP1_body m.

(** Lines 115-119: [dx], [dy], [dz] and [d] for the pair [(i, j)]. *)
Definition pair_delta (i j : nat) (m : mem) : vec3 D :=
  (ld a_old_x j m - ld a_x i m,
   ld a_old_y j m - ld a_y i m,
   ld a_old_z j m - ld a_z i m).

Definition pair_d (i j : nat) (m : mem) : D :=
  let '(dx, dy, dz) := pair_delta i j m in
  let temp_d := dsqrt (dx * dx + dy * dy + dz * dz) in
  if temp_d >? dlit 0.01 then temp_d else dlit 0.01.

(** Line 120: [F]. *)
Definition pair_F (i j : nat) (m : mem) : D :=
  let d := pair_d i j m in
  GRAVCONST * ld a_mass i m * ld a_old_mass j m / (d * d).

(** Lines 122-124: [ax], [ay], [az]. *)
Definition pair_accel (i j : nat) (m : mem) : vec3 D :=
  let '(dx, dy, dz) := pair_delta i j m in
  let d := pair_d i j m in
  let F := pair_F i j m in
  ((F / ld a_mass i m) * dx / d,
   (F / ld a_mass i m) * dy / d,
   (F / ld a_mass i m) * dz / d).

(** The body of the loop over [j] (lines 114-129). *)
Definition inner_body (i : nat) (m : mem) (j : nat) (vLocal : vec3 D) : vec3 D :=
  if decide (j <> i) then
    let '(vxLocal, vyLocal, vzLocal) := vLocal in
    let '(ax, ay, az) := pair_accel i j m in
    (vxLocal + ax, vyLocal + ay, vzLocal + az)
  else vLocal.

(** [vxLocal], [vyLocal], [vzLocal] when the loop over [j] ends. *)
Definition inner_loop (num i : nat) (m : mem) : vec3 D :=
  for_loop num (inner_body i m) (dlit 0, dlit 0, dlit 0).

(** The body of LOOP2 (lines 109-139). *)
Definition LOOP2_body (num i : nat) (m : mem) : mem :=
  let '(vxLocal, vyLocal, vzLocal) := inner_loop num i m in
  let m := st a_vx i (ld a_vx i m + vxLocal) m in
  let m := st a_vy i (ld a_vy i m + vyLocal) m in
  let m := st a_vz i (ld a_vz i m + vzLocal) m in
  let m := st a_x i (ld a_old_x i m + ld a_vx i m) m in
  let m := st a_y i (ld a_old_y i m + ld a_vy i m) m in
  st a_z i (ld a_old_z i m + ld a_vz i m) m.

Definition LOOP2 (num : nat) (m : mem) : mem := for_loop num (LOOP2_body num) m.

(** One iteration of the time loop, without its report. *)
Definition timestep (num : nat) (m : mem) : mem := LOOP2 num (LOOP1 num m).

(** *** [main] (lines 16-159) *)

(** Lines 70-74; the reduction adds the masses in index order. *)
Definition total_mass (num : nat) (m : mem) : D :=
  for_loop num (fun i totalMass => totalMass + ld a_mass i m) (dlit 0).

Definition centre_of (m : mem) (com : vec3 D) (totalMass : D) (num : nat) : vec3 D :=
  calc_centre_mass com (m a_x) (m a_y) (m a_z) (m a_mass) totalMass num.

(** The body of the time loop; [time] runs from 1 to [timesteps]. *)
Definition time_body (num : nat) (totalMass : D) (k : nat)
    (s : mem * vec3 D * list (event D)) : mem * vec3 D * list (event D) :=
  let '(m, com, out) := s in
  let time := S k in
  let m := timestep num m in
  let com := centre_of m com totalMass num in
  (m, com, out ++ [PrintStep time com]).

(** [main] from line 36 on, for the values [num] and [timesteps] that
    lines 33-34 assign.  Returns the exit status and the output. *)
Definition main_body (num timesteps : nat) (e : env) : Z * list (event D) :=
  let out := [PrintInitializing num] in
  let m := malloc_all num in
  if negb (malloc_ok e) then ((-99)%Z, out ++ [PrintMallocError])
  else
    let out := out ++ [PrintMalloced] in
    let '(rc, m, _) := init e num m 0 in
    if negb (rc =? 0)%Z then ((-99)%Z, out ++ [PrintInitError])
    else
      let out := out ++ [PrintInitComplete] in
      let totalMass := total_mass num m in
      let com : vec3 D := (dlit 0, dlit 0, dlit 0) in
      let com := centre_of m com totalMass num in
      let out := out ++ [PrintCom0 com] in
      let out := out ++ [PrintIntegrate timesteps] in
      let '(m, com, out) :=
        for_loop timesteps (time_body num totalMass) (m, com, out) in
      let out := out ++ [PrintElapsed num timesteps] in
      let com := centre_of m com totalMass num in
      (0%Z, out ++ [PrintCom com]).

(** [main]: [argc] and [argv] are never read. *)
Definition main (argc : Z) (argv : list string) (e : env) : Z * list (event D) :=
  let num := NUM in
  let timesteps := TS in
  main_body num timesteps e.

End Program.

Arguments mem : clear implicits.

(** ** The two arithmetics *)

(** Exact arithmetic: [double] read as the real numbers. *)
#[global] Instance R_arith : Arith R := {|
  dlit := Q2R;
  dof_int := IZR;
  dadd := Rplus;
  dsub := Rminus;
  dmul := Rmult;
  ddiv := Rdiv;
  dneg := Ropp;
  dsqrt := R_sqrt.sqrt;
  dgt := fun a b => if Rlt_dec b a then true else false;
|}.

(** Unfolds the arithmetic of the program into the operations of [R]. *)
Ltac to_R :=
  cbn [dlit dof_int dadd dsub dmul ddiv dneg dsqrt dgt R_arith] in *.

(** IEEE-754 binary64, round to nearest even: the arithmetic of [double] on
    the platforms the program is built for.  An [int] converts exactly; a
    decimal literal is the correctly rounded quotient of its numerator and
    denominator, both of which are exact for the literals of the program. *)
Definition float_of_Z (n : Z) : float :=
  match n with
  | Z0 => PrimFloat.zero
  | Zpos _ => PrimFloat.of_uint63 (Uint63.of_Z n)
  | Zneg p => PrimFloat.opp (PrimFloat.of_uint63 (Uint63.of_Z (Zpos p)))
  end.

#[global] Instance binary64_arith : Arith float := {|
  dlit := fun q => PrimFloat.div (float_of_Z (Qnum q)) (float_of_Z (Zpos (Qden q)));
  dof_int := float_of_Z;
  dadd := PrimFloat.add;
  dsub := PrimFloat.sub;
  dmul := PrimFloat.mul;
  ddiv := PrimFloat.div;
  dneg := PrimFloat.opp;
  dsqrt := PrimFloat.sqrt;
  dgt := fun a b => PrimFloat.ltb b a;
|}.

(** ** Well-formed memories and the shape of a step *)

Section Shapes.
Context {D : Type} {A : Arith D}.
Local Open Scope dbl_scope.

(** Each of the eleven arrays holds [num] elements, as after the calls of
    [malloc] at lines 39-49. *)
Definition wf (num : nat) (m : mem D) : Prop := forall a, length (m a) = num.

(** The arrays LOOP2 only reads. *)
Definition frozen (a : arr) : bool :=
  match a with
  | a_mass | a_old_x | a_old_y | a_old_z | a_old_mass => true
  | _ => false
  end.

(** The array a snapshot array is copied from; any other array is its own
    source. *)
Definition src (a : arr) : arr :=
  match a with
  | a_old_x => a_x
  | a_old_y => a_y
  | a_old_z => a_z
  | a_old_mass => a_mass
  | _ => a
  end.

(** The memory after the snapshot of a well-formed memory [m]. *)
Definition snap (m : mem D) : mem D := fun a => m (src a).

(** Position and velocity of particle [i]. *)
Definition position (i : nat) (m : mem D) : vec3 D :=
  (ld a_x i m, ld a_y i m, ld a_z i m).
Definition velocity (i : nat) (m : mem D) : vec3 D :=
  (ld a_vx i m, ld a_vy i m, ld a_vz i m).

(** The snapshot position of particle [j]. *)
Definition old_position (j : nat) (m : mem D) : vec3 D :=
  (ld a_old_x j m, ld a_old_y j m, ld a_old_z j m).

(** The memory when LOOP2 evaluates the forces on particle [i], in the
    time step that starts from [m]. *)
Definition at_force_evaluation (num i : nat) (m : mem D) : mem D :=
  for_loop i (LOOP2_body num) (LOOP1 num m).

(** [t] time steps. *)
Definition timesteps_from (num t : nat) (m : mem D) : mem D :=
  for_loop t (fun _ => timestep num) m.

(** Lines 132-134 for particle [i], read from the memory [m] in which
    LOOP2 starts. *)
Definition stepped_velocity (num i : nat) (m : mem D) : vec3 D :=
  let '(vxLocal, vyLocal, vzLocal) := inner_loop num i m in
  (ld a_vx i m + vxLocal, ld a_vy i m + vyLocal, ld a_vz i m + vzLocal).

(** Lines 137-139 for particle [i]. *)
Definition stepped_position (num i : nat) (m : mem D) : vec3 D :=
  let '(vx', vy', vz') := stepped_velocity num i m in
  (ld a_old_x i m + vx', ld a_old_y i m + vy', ld a_old_z i m + vz').

(** Two memories with the same arrays. *)
Definition same_arrays (m m' : mem D) : Prop := forall a, m a = m' a.

(** What the force evaluation for particle [i] reads: the arrays LOOP2
    never writes, and element [i] of the others. *)
Definition reads_agree (i : nat) (m m' : mem D) : Prop :=
  (forall a, frozen a = true -> m a = m' a) /\ (forall a, ld a i m = ld a i m').

(** The invariant of LOOP2 after [k] iterations from [m]: the particles
    below [k] are stepped, from what [m] held; the others are as in [m]. *)
Definition LOOP2_inv (num : nat) (m : mem D) (k : nat) (mk : mem D) : Prop :=
  wf num mk /\
  (forall a, frozen a = true -> mk a = m a) /\
  (forall a i, k <= i -> ld a i mk = ld a i m) /\
  (forall i, i < k ->
     velocity i mk = stepped_velocity num i m /\
     position i mk = stepped_position num i m).

(** [lo + width * (double)rand() * recip], for the value [r] of [rand()]. *)
Definition sample (e : env) (lo width : D) (r : Z) : D :=
  lo + width * dof_int r * (dlit 1 / dof_int (RAND_MAX e)).

(** What [init] has stored for particle [i] when it returns: the samples
    of the seven values that [rand()] returns from call [k + 7 * i] on, in
    the order x, y, z, vx, vy, vz, mass. *)
Definition stored_in_order (e : env) (k i : nat) (m : mem D) : Prop :=
  let c := (k + 7 * i)%nat in
  ld a_x i m = sample e (- dlit 50) (dlit 100) (rand_seq e c) /\
  ld a_y i m = sample e (- dlit 50) (dlit 100) (rand_seq e (1 + c)%nat) /\
  ld a_z i m = sample e (dlit 0) (dlit 100) (rand_seq e (2 + c)%nat) /\
  ld a_vx i m = sample e (- dlit 5) (dlit 2 * dlit 5) (rand_seq e (3 + c)%nat) /\
  ld a_vy i m = sample e (- dlit 5) (dlit 2 * dlit 5) (rand_seq e (4 + c)%nat) /\
  ld a_vz i m = sample e (- dlit 5) (dlit 2 * dlit 5) (rand_seq e (5 + c)%nat) /\
  ld a_mass i m = sample e (dlit 0.1) (dof_int 10) (rand_seq e (6 + c)%nat).

(** [com] before its first assignment; see [centre_of_com]. *)
Definition zero3 : vec3 D := (dlit 0, dlit 0, dlit 0).

(** The line that [main] prints at the end of time step [k + 1], when the
    time loop starts from the memory [m]. *)
Definition report (num : nat) (totalMass : D) (m : mem D) (k : nat) : event D :=
  PrintStep (S k) (centre_of (timesteps_from num (S k) m) zero3 totalMass num).

(** The memory that [init] leaves. *)
Definition initial_memory (e : env) (num : nat) : mem D :=
  snd (fst (init e num (malloc_all num) 0)).


(** *** The driver that recomputes the total mass before every report

    [main] with lines 151 and 157 given the sum of the current masses in
    place of the [totalMass] of line 70. *)
Definition time_body_recomputing (num : nat) (k : nat)
    (s : mem D * vec3 D * list (event D)) : mem D * vec3 D * list (event D) :=
  let '(m, com, out) := s in
  let time := S k in
  let m := timestep num m in
  let com := centre_of m com (total_mass num m) num in
  (m, com, out ++ [PrintStep time com]).

Definition main_body_recomputing (num timesteps : nat) (e : env)
    : Z * list (event D) :=
  let out := [PrintInitializing num] in
  let m := malloc_all num in
  if negb (malloc_ok e) then ((-99)%Z, out ++ [PrintMallocError])
  else
    let out := out ++ [PrintMalloced] in
    let '(rc, m, _) := init e num m 0 in
    if negb (rc =? 0)%Z then ((-99)%Z, out ++ [PrintInitError])
    else
      let out := out ++ [PrintInitComplete] in
      let com : vec3 D := (dlit 0, dlit 0, dlit 0) in
      let com := centre_of m com (total_mass num m) num in
      let out := out ++ [PrintCom0 com] in
      let out := out ++ [PrintIntegrate timesteps] in
      let '(m, com, out) :=
        for_loop timesteps (time_body_recomputing num) (m, com, out) in
      let out := out ++ [PrintElapsed num timesteps] in
      let com := centre_of m com (total_mass num m) num in
      (0%Z, out ++ [PrintCom com]).

Definition main_recomputing (argc : Z) (argv : list string) (e : env)
    : Z * list (event D) :=
  main_body_recomputing NUM TS e.

End Shapes.

(** ** The step as the specification words it (section 4.3), over the reals *)

Module Spec.
Local Open Scope R_scope.

Definition vadd (p q : vec3 R) : vec3 R :=
  let '(p0, p1, p2) := p in let '(q0, q1, q2) := q in (p0 + q0, p1 + q1, p2 + q2).
Definition vsub (p q : vec3 R) : vec3 R :=
  let '(p0, p1, p2) := p in let '(q0, q1, q2) := q in (p0 - q0, p1 - q1, p2 - q2).
Definition vscale (c : R) (p : vec3 R) : vec3 R :=
  let '(p0, p1, p2) := p in (c * p0, c * p1, c * p2).
Definition vnorm (p : vec3 R) : R :=
  let '(p0, p1, p2) := p in R_sqrt.sqrt (p0 * p0 + p1 * p1 + p2 * p2).
Definition vsum (l : list (vec3 R)) : vec3 R := fold_right vadd (0, 0, 0) l.

(** The softening-limited magnitude [d = max(|d|, 0.01)]. *)
Definition softened (dvec : vec3 R) : R := Rmax (vnorm dvec) 0.01.

(** [F = G * mass_i * old_mass_j / d^2]. *)
Definition force (G mass_i old_mass_j d : R) : R :=
  G * mass_i * old_mass_j / d ^ 2.

(** The contribution [(F / mass_i) * (d / d)] of particle [j] to the
    acceleration of particle [i]. *)
Definition contribution (G mass_i old_mass_j : R) (old_pos_i old_pos_j : vec3 R)
    : vec3 R :=
  let dvec := vsub old_pos_j old_pos_i in
  let d := softened dvec in
  let F := force G mass_i old_mass_j d in
  vscale (F / mass_i) (vscale (/ d) dvec).

(** The same contribution with [mass_i] cancelled. *)
Definition contribution_cancelled (G old_mass_j : R) (old_pos_i old_pos_j : vec3 R)
    : vec3 R :=
  let dvec := vsub old_pos_j old_pos_i in
  let d := softened dvec in
  vscale (G * old_mass_j / d ^ 2) (vscale (/ d) dvec).

(** The particles other than [i]. *)
Definition others (num i : nat) : list nat :=
  filter (fun j => j <> i) (seq 0 num).

(** The sum over all [j <> i] of the contributions, from the snapshot
    [old_mass], [old_pos] and the mass [mass_i]. *)
Definition net_acceleration (G : R) (num i : nat) (mass_i : R)
    (old_mass : nat -> R) (old_pos : nat -> vec3 R) : vec3 R :=
  vsum (map (fun j => contribution G mass_i (old_mass j) (old_pos i) (old_pos j))
            (others num i)).

(** Steps 3 and 4: the new velocity and the new position of particle [i]. *)
Definition new_velocity (G : R) (num i : nat) (m : mem R) : vec3 R :=
  vadd (velocity i m)
       (net_acceleration G num i (ld a_mass i m)
          (fun j => ld a_mass j m) (fun j => position j m)).

Definition new_position (G : R) (num i : nat) (m : mem R) : vec3 R :=
  vadd (position i m) (new_velocity G num i m).

(** [Σ_{i < N} mass_i * pos_i], one axis. *)
Definition weighted_sum (mass pos : list R) (N : nat) : R :=
  fold_right Rplus 0 (map (fun i => rd mass i * rd pos i) (seq 0 N)).

End Spec.

(** ** Two bodies *)

Section TwoBodies.
Local Open Scope R_scope.

(** The momentum [mass_0 * v_0 + mass_1 * v_1] of a system of two
    particles, and its mass-weighted position [mass_0 * p_0 + mass_1 * p_1]. *)
Definition momentum2 (m : mem R) : vec3 R :=
  Spec.vadd (Spec.vscale (ld a_mass 0 m) (velocity 0 m))
            (Spec.vscale (ld a_mass 1 m) (velocity 1 m)).

Definition weighted_position2 (m : mem R) : vec3 R :=
  Spec.vadd (Spec.vscale (ld a_mass 0 m) (position 0 m))
            (Spec.vscale (ld a_mass 1 m) (position 1 m)).

End TwoBodies.

(** ** Sample memories *)

(** Two particles of masses 2 and 3, at rest, one unit apart. *)
Definition two_bodies : mem R :=
  fun a => match a with
           | a_mass => [2; 3]%R
           | a_x => [0; 1]%R
           | _ => [0; 0]%R
           end.

(** A particle of mass 1 at the origin, moving along the x axis. *)
Definition lone_particle : mem R :=
  fun a => match a with
           | a_mass | a_vx => [1]%R
           | _ => [0]%R
           end.

(** The memories of [lone_particle] and [two_bodies] in binary64, the
    second with the mass [mass_0] for particle 0 and particle 1 off the
    axes. *)
Definition lone_particle_binary64 : mem float :=
  fun a => match a with
           | a_mass | a_vx => [1]%float
           | _ => [0]%float
           end.

Definition two_bodies_binary64 (mass_0 : float) : mem float :=
  fun a => match a with
           | a_mass => [mass_0; 3]%float
           | a_x => [0; 1]%float
           | a_y | a_z => [0; 2]%float
           | _ => [0; 0]%float
           end.

(** ** Sample platforms *)

(** A platform on which [malloc] succeeds and [rand()] returns 0. *)
Definition env_zero : env :=
  {| malloc_ok := true; RAND_MAX := 32767; rand_seq := fun _ => 0%Z |}.

(** A platform on which [rand()] returns [RAND_MAX]. *)
Definition env_top : env :=
  {| malloc_ok := true; RAND_MAX := 2147483647; rand_seq := fun _ => 2147483647%Z |}.

(** ** The ranges of the initial values *)

Section Ranges.
Local Open Scope R_scope.

(** The ranges of what [init] stores for particle [i]; every bound is
    attained. *)
Definition in_ranges (i : nat) (m : mem R) : Prop :=
  0.1 <= ld a_mass i m <= 10.1 /\
  -50 <= ld a_x i m <= 50 /\
  -50 <= ld a_y i m <= 50 /\
  0 <= ld a_z i m <= 100 /\
  -5 <= ld a_vx i m <= 5 /\
  -5 <= ld a_vy i m <= 5 /\
  -5 <= ld a_vz i m <= 5.
End Ranges.

(** ** [output_particles] (lines 182-188) *)

(** What [output_particles] prints: the heading, and one line per
    particle with its index, position, velocity and mass. *)
Inductive line (D : Type) : Type :=
  | PrintHeading
  | PrintParticle (i : nat) (x y z vx vy vz mass : D).

Arguments PrintHeading {D}.
Arguments PrintParticle {D} i x y z vx vy vz mass.

(** The mass a line of [output_particles] shows. *)
Definition printed_mass {D : Type} (l : line D) : option D :=
  match l with
  | PrintHeading => None
  | PrintParticle _ _ _ _ _ _ _ mass => Some mass
  end.

(** ** The lines of the output (lines 36-158) *)

(** The newline characters that the [printf] of an event writes: the
    formats of lines 36 and 57 hold none, those of the two error messages
    of lines 53 and 63 begin and end with one, and the others end with
    one. *)
Definition newlines {D : Type} (ev : event D) : nat :=
  match ev with
  | PrintInitializing _ => 0
  | PrintMallocError => 2
  | PrintMalloced => 0
  | PrintInitError => 2
  | PrintInitComplete => 1
  | PrintCom0 _ => 1
  | PrintIntegrate _ => 1
  | PrintStep _ _ => 1
  | PrintElapsed _ _ => 1
  | PrintCom _ => 1
  end.

(** The number of lines that an output makes on the terminal. *)
Definition lines_printed {D : Type} (out : list (event D)) : nat :=
  list_sum (map newlines out).

Section Schedules.
Context {D : Type} {A : Arith D}.
Local Open Scope dbl_scope.

Definition output_particles (x y z vx vy vz mass : list D) (n : nat) : list (line D) :=
  let out := [PrintHeading] in
  for_loop n
    (fun i out =>
       out ++ [PrintParticle i (rd x i) (rd y i) (rd z i)
                               (rd vx i) (rd vy i) (rd vz i) (rd mass i)])
    out.

(** The call of [output_particles] that the comments of lines 75 and 149
    hold. *)
Definition dump (m : mem D) (num : nat) : list (line D) :=
  output_particles (m a_x) (m a_y) (m a_z) (m a_vx) (m a_vy) (m a_vz) (m a_mass) num.

(** LOOP2 with its iterations taken in the order [sched], one whole
    iteration after the other: what a schedule of the [omp parallel for] of
    line 105 amounts to when no two iterations overlap. *)
Definition LOOP2_scheduled (num : nat) (sched : list nat) (m : mem D) : mem D :=
  fold_left (fun m i => LOOP2_body num i m) sched m.

(** The invariant of a scheduled LOOP2 once the iterations [done] are
    over: these particles are stepped, from what [m] held; the others are
    as in [m]. *)
Definition LOOP2_sched_inv (num : nat) (m : mem D) (done : list nat) (mk : mem D) : Prop :=
  wf num mk /\
  (forall a, frozen a = true -> mk a = m a) /\
  (forall a i, i ∉ done -> ld a i mk = ld a i m) /\
  (forall i, i ∈ done ->
     velocity i mk = stepped_velocity num i m /\
     position i mk = stepped_position num i m).

(** The reduction of lines 71-74 with the masses added in the order
    [sched]. *)
Definition total_mass_scheduled (sched : list nat) (m : mem D) : D :=
  fold_left (fun totalMass i => totalMass + ld a_mass i m) sched (dlit 0).

(** Two memories with the same particles: the same masses, positions and
    velocities, whatever the snapshot arrays hold. *)
Definition same_particles (m m' : mem D) : Prop := forall a, src a = a -> m a = m' a.

(** [main] from line 36 on, with what the program does not initialize left
    open: [heap] is what the fresh storage of lines 39-49 holds, and [com0]
    what the array [com] of line 26 holds before the first call of
    [calc_centre_mass]. *)
Definition main_body_on (heap : mem D) (com0 : vec3 D) (num timesteps : nat) (e : env)
    : Z * list (event D) :=
  let out := [PrintInitializing num] in
  let m := heap in
  if negb (malloc_ok e) then ((-99)%Z, out ++ [PrintMallocError])
  else
    let out := out ++ [PrintMalloced] in
    let '(rc, m, _) := init e num m 0 in
    if negb (rc =? 0)%Z then ((-99)%Z, out ++ [PrintInitError])
    else
      let out := out ++ [PrintInitComplete] in
      let totalMass := total_mass num m in
      let com := com0 in
      let com := centre_of m com totalMass num in
      let out := out ++ [PrintCom0 com] in
      let out := out ++ [PrintIntegrate timesteps] in
      let '(m, com, out) :=
        for_loop timesteps (time_body num totalMass) (m, com, out) in
      let out := out ++ [PrintElapsed num timesteps] in
      let com := centre_of m com totalMass num in
      (0%Z, out ++ [PrintCom com]).

End Schedules.

(** The centre of mass that binary64 gives an empty system: 0.0 / 0.0 on
    every axis. *)
Definition nan3 : vec3 float := (PrimFloat.nan, PrimFloat.nan, PrimFloat.nan).

(** ** Sums, boxes and frames, over the reals *)

Section Mechanics.
Local Open Scope R_scope.

(** [Σ_{i < n} f i]. *)
Definition sum_upto (f : nat -> R) (n : nat) : R :=
  fold_right Rplus 0 (map f (seq 0 n)).

(** A point inside the box with the corners [lo] and [hi]. *)
Definition within (lo hi p : vec3 R) : Prop :=
  let '(lo0, lo1, lo2) := lo in
  let '(hi0, hi1, hi2) := hi in
  let '(p0, p1, p2) := p in
  lo0 <= p0 <= hi0 /\ lo1 <= p1 <= hi1 /\ lo2 <= p2 <= hi2.

(** Every component of [p] is at most [B] in absolute value. *)
Definition components_within (B : R) (p : vec3 R) : Prop :=
  let '(p0, p1, p2) := p in Rabs p0 <= B /\ Rabs p1 <= B /\ Rabs p2 <= B.

(** The mass of the particles other than [i]. *)
Definition mass_of_others (num i : nat) (m : mem R) : R :=
  fold_right Rplus 0 (map (fun j => ld a_mass j m) (Spec.others num i)).

(** The momentum [Σ mass_i * v_i] of the first [num] particles, and their
    mass-weighted position [Σ mass_i * p_i]. *)
Definition momentum (num : nat) (m : mem R) : vec3 R :=
  Spec.vsum (map (fun i => Spec.vscale (ld a_mass i m) (velocity i m)) (seq 0 num)).

Definition weighted_position (num : nat) (m : mem R) : vec3 R :=
  Spec.vsum (map (fun i => Spec.vscale (ld a_mass i m) (position i m)) (seq 0 num)).

(** The vector product, and the angular momentum [Σ mass_i * (p_i x v_i)]
    of the first [num] particles about the origin. *)
Definition cross (p q : vec3 R) : vec3 R :=
  let '(p0, p1, p2) := p in
  let '(q0, q1, q2) := q in
  (p1 * q2 - p2 * q1, p2 * q0 - p0 * q2, p0 * q1 - p1 * q0).

Definition angular_momentum (num : nat) (m : mem R) : vec3 R :=
  Spec.vsum (map (fun i => Spec.vscale (ld a_mass i m) (cross (position i m) (velocity i m)))
                 (seq 0 num)).

(** The particles of [m'] are those of [m] seen from a frame displaced by
    [c] and moving with the velocity [u]: every position is shifted by
    [c], every velocity by [u], and the masses are the same. *)
Definition boosted (c u : vec3 R) (num : nat) (m m' : mem R) : Prop :=
  forall i, (i < num)%nat ->
    position i m' = Spec.vadd (position i m) c /\
    velocity i m' = Spec.vadd (velocity i m) u /\
    ld a_mass i m' = ld a_mass i m.

(** [two_bodies] displaced by 5 along x and moving with the velocity 1
    along x. *)
Definition two_bodies_boosted : mem R :=
  fun a => match a with
           | a_mass => [2; 3]
           | a_x => [5; 6]
           | a_vx => [1; 1]
           | _ => [0; 0]
           end.

(** [two_bodies] with leftovers in the snapshot arrays. *)
Definition two_bodies_stale : mem R :=
  fun a => match a with
           | a_mass => [2; 3]
           | a_x => [0; 1]
           | a_old_x | a_old_mass => [9; 9]
           | _ => [0; 0]
           end.

End Mechanics.

(** ** Loops *)

Lemma for_loop_0 {S : Type} (body : nat -> S -> S) (s : S) : for_loop 0 body s = s.
Proof. reflexivity. Qed.

Lemma for_loop_S {S : Type} (n : nat) (body : nat -> S -> S) (s : S) :
  for_loop (Datatypes.S n) body s = body n (for_loop n body s).
Proof. unfold for_loop. rewrite seq_S, fold_left_app. reflexivity. Qed.

(** The invariant rule of a [for] loop. *)
Lemma for_loop_inv {S : Type} (P : nat -> S -> Prop) (n : nat)
    (body : nat -> S -> S) (s : S) :
  P 0 s ->
  (forall i s, i < n -> P i s -> P (Datatypes.S i) (body i s)) ->
  P n (for_loop n body s).
Proof.
  intros H0 Hstep.
  assert (Hk : forall k, k <= n -> P k (for_loop k body s)).
  { induction k as [|k IH]; intros Hle; [exact H0|].
    rewrite for_loop_S. apply Hstep; [lia|]. apply IH. lia. }
  apply Hk. lia.
Qed.

Lemma for_loop_ext {S : Type} (n : nat) (body body' : nat -> S -> S) (s : S) :
  (forall i s, i < n -> body i s = body' i s) ->
  for_loop n body s = for_loop n body' s.
Proof.
  intros Hb. induction n as [|n IH]; [reflexivity|].
  rewrite !for_loop_S, IH by (intros; apply Hb; lia). apply Hb. lia.
Qed.

Section Facts.
Context {D : Type} {A : Arith D}.
Local Open Scope dbl_scope.
Implicit Types (m : mem D) (a b : arr) (i j num : nat) (v : D).

Lemma st_same a i v m : st a i v m a = <[i := v]> (m a).
Proof. unfold st. rewrite decide_True; reflexivity. Qed.

Lemma st_other a b i v m : b <> a -> st a i v m b = m b.
Proof. intros Hne. unfold st. rewrite decide_False; [reflexivity | exact Hne]. Qed.

Lemma length_st a b i v m : length (st a i v m b) = length (m b).
Proof. unfold st. destruct (decide (b = a)); [apply length_insert | reflexivity]. Qed.

Lemma wf_st num a i v m : wf num m -> wf num (st a i v m).
Proof. intros Hwf b. rewrite length_st. apply Hwf. Qed.

Lemma rd_insert_eq (l : list D) i v : i < length l -> rd (<[i := v]> l) i = v.
Proof. intros Hi. unfold rd. rewrite list_lookup_insert_eq by exact Hi. reflexivity. Qed.

Lemma rd_insert_ne (l : list D) i j v : i <> j -> rd (<[i := v]> l) j = rd l j.
Proof. intros Hne. unfold rd. rewrite list_lookup_insert_ne by exact Hne. reflexivity. Qed.

Lemma lookup_rd (l : list D) i : i < length l -> l !! i = Some (rd l i).
Proof.
  intros Hi. unfold rd. destruct (lookup_lt_is_Some_2 l i Hi) as [w Hw].
  rewrite Hw. reflexivity.
Qed.

Lemma ld_st_eq a i v m : i < length (m a) -> ld a i (st a i v m) = v.
Proof. intros Hi. unfold ld. rewrite st_same. apply rd_insert_eq, Hi. Qed.

Lemma ld_st_arr a b i j v m : b <> a -> ld b j (st a i v m) = ld b j m.
Proof. intros Hne. unfold ld. rewrite st_other by exact Hne. reflexivity. Qed.

Lemma ld_st_idx a b i j v m : j <> i -> ld b j (st a i v m) = ld b j m.
Proof.
  intros Hne. unfold ld. destruct (decide (b = a)) as [->|Hab].
  - rewrite st_same. apply rd_insert_ne. congruence.
  - rewrite st_other by exact Hab. reflexivity.
Qed.

(** Two arrays of [num] elements with the same elements are the same. *)
Lemma list_eq_rd (num : nat) (l l' : list D) :
  length l = num -> length l' = num ->
  (forall j, j < num -> l !! j = l' !! j) -> l = l'.
Proof.
  intros Hl Hl' Hj. apply list_eq. intros j.
  destruct (decide (j < num)) as [Hlt|Hge]; [apply Hj, Hlt|].
  rewrite !lookup_ge_None_2 by lia. reflexivity.
Qed.

(** *** LOOP1 *)

Lemma LOOP1_body_arrays i m a :
  LOOP1_body i m a =
    match a with
    | a_old_x => <[i := ld a_x i m]> (m a_old_x)
    | a_old_y => <[i := ld a_y i m]> (m a_old_y)
    | a_old_z => <[i := ld a_z i m]> (m a_old_z)
    | a_old_mass => <[i := ld a_mass i m]> (m a_old_mass)
    | _ => m a
    end.
Proof. destruct a; reflexivity. Qed.

Lemma LOOP1_body_src i m a : src a = a -> LOOP1_body i m a = m a.
Proof. rewrite LOOP1_body_arrays. destruct a; simpl; congruence. Qed.

Lemma LOOP1_snapshot num m a : wf num m -> LOOP1 num m a = snap m a.
Proof.
  intros Hwf. unfold LOOP1, snap.
  pose (P := fun (k : nat) (mk : mem D) =>
    wf num mk /\ (forall b, src b = b -> mk b = m b) /\
    (forall b j, j < k -> mk b !! j = m (src b) !! j)).
  assert (HP : P num (for_loop num LOOP1_body m)).
  { apply for_loop_inv.
    - split; [exact Hwf|]. split; [reflexivity|]. intros b j Hj. lia.
    - intros i mi Hi (Hwfi & Hsrc & Hcopied).
      split; [|split].
      + intros b. rewrite LOOP1_body_arrays.
        destruct b; rewrite ?length_insert; apply Hwfi.
      + intros b Hb. rewrite LOOP1_body_src by exact Hb. apply Hsrc, Hb.
      + intros b j Hj.
        destruct (decide (src b = b)) as [Hb|Hb].
        { rewrite LOOP1_body_src, Hb by exact Hb. rewrite Hsrc by exact Hb. reflexivity. }
        assert (Hread : forall c, src c = c -> ld c i mi = ld c i m).
        { intros c Hc. unfold ld. rewrite Hsrc by exact Hc. reflexivity. }
        rewrite LOOP1_body_arrays.
        destruct (decide (j = i)) as [->|Hji].
        * destruct b; simpl in Hb |- *; try congruence;
            (rewrite list_lookup_insert_eq by (rewrite Hwfi; lia));
            rewrite Hread by reflexivity; unfold ld;
            symmetry; apply lookup_rd; rewrite Hwf; lia.
        * destruct b; simpl in Hb |- *; try congruence;
            (rewrite list_lookup_insert_ne by congruence);
            first [ apply (Hcopied a_old_x) | apply (Hcopied a_old_y)
                  | apply (Hcopied a_old_z) | apply (Hcopied a_old_mass) ]; lia. }
  destruct HP as (Hwfn & Hsrc & Hcopied).
  apply (list_eq_rd num); [apply Hwfn | apply Hwf |].
  intros j Hj. apply Hcopied, Hj.
Qed.
End Facts.

(** ** LOOP2 and the time step *)

Section Step.
Context {D : Type} {A : Arith D}.
Local Open Scope dbl_scope.
Implicit Types (m : mem D) (a b : arr) (i j num : nat) (v : D).

Lemma reads_agree_frozen i j m m' a :
  reads_agree i m m' -> frozen a = true -> ld a j m = ld a j m'.
Proof. intros [Hf _] Ha. unfold ld. rewrite (Hf a Ha). reflexivity. Qed.

Lemma pair_delta_agree i j m m' :
  reads_agree i m m' -> pair_delta i j m = pair_delta i j m'.
Proof.
  intros H. unfold pair_delta.
  rewrite !(reads_agree_frozen i j m m' _ H) by reflexivity.
  destruct H as [_ Hi]. rewrite !Hi. reflexivity.
Qed.

Lemma pair_d_agree i j m m' : reads_agree i m m' -> pair_d i j m = pair_d i j m'.
Proof. intros H. unfold pair_d. rewrite (pair_delta_agree i j m m' H). reflexivity. Qed.

Lemma pair_F_agree i j m m' : reads_agree i m m' -> pair_F i j m = pair_F i j m'.
Proof.
  intros H. unfold pair_F. rewrite (pair_d_agree i j m m' H).
  rewrite (reads_agree_frozen i j m m' a_old_mass H) by reflexivity.
  destruct H as [_ Hi]. rewrite !Hi. reflexivity.
Qed.

Lemma pair_accel_agree i j m m' :
  reads_agree i m m' -> pair_accel i j m = pair_accel i j m'.
Proof.
  intros H. unfold pair_accel.
  rewrite (pair_delta_agree i j m m' H), (pair_d_agree i j m m' H),
    (pair_F_agree i j m m' H).
  destruct H as [_ Hi]. rewrite !Hi. reflexivity.
Qed.

Lemma inner_loop_agree num i m m' :
  reads_agree i m m' -> inner_loop num i m = inner_loop num i m'.
Proof.
  intros H. unfold inner_loop. apply for_loop_ext. intros j s _.
  unfold inner_body. rewrite (pair_accel_agree i j m m' H). reflexivity.
Qed.

Lemma same_arrays_reads_agree i m m' : same_arrays m m' -> reads_agree i m m'.
Proof. intros H. split; [intros a _; apply H|]. intros a. unfold ld. rewrite H. reflexivity. Qed.

Lemma stepped_velocity_same num i m m' :
  same_arrays m m' -> stepped_velocity num i m = stepped_velocity num i m'.
Proof.
  intros H. unfold stepped_velocity.
  rewrite (inner_loop_agree num i m m') by apply same_arrays_reads_agree, H.
  unfold ld. rewrite !H. reflexivity.
Qed.

Lemma stepped_position_same num i m m' :
  same_arrays m m' -> stepped_position num i m = stepped_position num i m'.
Proof.
  intros H. unfold stepped_position.
  rewrite (stepped_velocity_same num i m m' H). unfold ld. rewrite !H. reflexivity.
Qed.

(** The arrays after the body of LOOP2 for particle [i]. *)
Lemma LOOP2_body_arrays num i m a :
  wf num m -> i < num ->
  LOOP2_body num i m a =
    let '(vx', vy', vz') := stepped_velocity num i m in
    let '(x', y', z') := stepped_position num i m in
    match a with
    | a_vx => <[i := vx']> (m a_vx)
    | a_vy => <[i := vy']> (m a_vy)
    | a_vz => <[i := vz']> (m a_vz)
    | a_x => <[i := x']> (m a_x)
    | a_y => <[i := y']> (m a_y)
    | a_z => <[i := z']> (m a_z)
    | _ => m a
    end.
Proof.
  intros Hwf Hi. unfold LOOP2_body, stepped_position, stepped_velocity.
  destruct (inner_loop num i m) as [[vxLocal vyLocal] vzLocal]. cbv zeta.
  assert (Hlen : forall b, i < length (m b)) by (intros b; rewrite Hwf; exact Hi).
  destruct a;
    repeat first
      [ rewrite st_same
      | rewrite st_other by discriminate
      | rewrite ld_st_arr by discriminate
      | rewrite ld_st_eq by (rewrite ?length_st; apply Hlen) ];
    reflexivity.
Qed.

Lemma LOOP2_body_frozen num i m a : frozen a = true -> LOOP2_body num i m a = m a.
Proof.
  intros Ha. unfold LOOP2_body.
  destruct (inner_loop num i m) as [[vxLocal vyLocal] vzLocal]. cbv zeta.
  destruct a; try discriminate Ha; reflexivity.
Qed.

Lemma length_LOOP2_body num i m a : length (LOOP2_body num i m a) = length (m a).
Proof.
  unfold LOOP2_body.
  destruct (inner_loop num i m) as [[vxLocal vyLocal] vzLocal]. cbv zeta.
  rewrite !length_st. reflexivity.
Qed.

Lemma ld_LOOP2_body_other num i j m a :
  j <> i -> ld a j (LOOP2_body num i m) = ld a j m.
Proof.
  intros Hne. unfold LOOP2_body.
  destruct (inner_loop num i m) as [[vxLocal vyLocal] vzLocal]. cbv zeta.
  rewrite !ld_st_idx by exact Hne. reflexivity.
Qed.

Lemma velocity_LOOP2_body num i m :
  wf num m -> i < num -> velocity i (LOOP2_body num i m) = stepped_velocity num i m.
Proof.
  intros Hwf Hi. unfold velocity, ld.
  rewrite !(LOOP2_body_arrays num i m _ Hwf Hi).
  destruct (stepped_velocity num i m) as [[vx' vy'] vz'].
  destruct (stepped_position num i m) as [[x' y'] z'].
  rewrite !rd_insert_eq by (rewrite Hwf; exact Hi). reflexivity.
Qed.

Lemma position_LOOP2_body num i m :
  wf num m -> i < num -> position i (LOOP2_body num i m) = stepped_position num i m.
Proof.
  intros Hwf Hi. unfold position, ld.
  rewrite !(LOOP2_body_arrays num i m _ Hwf Hi).
  destruct (stepped_velocity num i m) as [[vx' vy'] vz'].
  destruct (stepped_position num i m) as [[x' y'] z'].
  rewrite !rd_insert_eq by (rewrite Hwf; exact Hi). reflexivity.
Qed.

Lemma LOOP2_inv_reads_agree num m k mk :
  LOOP2_inv num m k mk -> reads_agree k mk m.
Proof. intros (_ & Hf & Hge & _). split; [exact Hf|]. intros a. apply Hge. lia. Qed.

Lemma LOOP2_prefix num m k :
  wf num m -> k <= num -> LOOP2_inv num m k (for_loop k (LOOP2_body num) m).
Proof.
  intros Hwf Hk. apply for_loop_inv.
  - split; [exact Hwf|]. split; [reflexivity|]. split; [reflexivity|]. intros i Hi. lia.
  - intros i mi Hi Hinv.
    pose proof (LOOP2_inv_reads_agree num m i mi Hinv) as Hagree.
    destruct Hinv as (Hwfi & Hf & Hge & Hlt).
    assert (Hv : stepped_velocity num i mi = stepped_velocity num i m).
    { unfold stepped_velocity. rewrite (inner_loop_agree num i mi m Hagree).
      rewrite !Hge by lia. reflexivity. }
    assert (Hp : stepped_position num i mi = stepped_position num i m).
    { unfold stepped_position. rewrite Hv.
      rewrite !(reads_agree_frozen i i mi m _ Hagree) by reflexivity. reflexivity. }
    split; [|split; [|split]].
    + intros a. rewrite length_LOOP2_body. apply Hwfi.
    + intros a Ha. rewrite LOOP2_body_frozen by exact Ha. apply Hf, Ha.
    + intros a j Hj. rewrite ld_LOOP2_body_other by lia. apply Hge. lia.
    + intros j Hj. destruct (decide (j = i)) as [->|Hji].
      * rewrite velocity_LOOP2_body, position_LOOP2_body by (assumption || lia).
        rewrite Hv, Hp. split; reflexivity.
      * unfold velocity, position. rewrite !ld_LOOP2_body_other by exact Hji.
        apply Hlt. lia.
Qed.

Lemma wf_snap num m : wf num m -> wf num (snap m).
Proof. intros Hwf a. apply Hwf. Qed.

Lemma wf_same num m m' : same_arrays m m' -> wf num m' -> wf num m.
Proof. intros H Hwf a. rewrite H. apply Hwf. Qed.

Lemma LOOP1_same num m : wf num m -> same_arrays (LOOP1 num m) (snap m).
Proof. intros Hwf a. apply LOOP1_snapshot, Hwf. Qed.

Lemma wf_LOOP1 num m : wf num m -> wf num (LOOP1 num m).
Proof. intros Hwf. eapply wf_same; [apply LOOP1_same, Hwf | apply wf_snap, Hwf]. Qed.

(** One time step, particle by particle: every particle is stepped from
    the snapshot of the memory the step starts in. *)
Lemma timestep_particle num m i :
  wf num m -> i < num ->
  velocity i (timestep num m) = stepped_velocity num i (snap m) /\
  position i (timestep num m) = stepped_position num i (snap m).
Proof.
  intros Hwf Hi. unfold timestep, LOOP2.
  destruct (LOOP2_prefix num (LOOP1 num m) num (wf_LOOP1 num m Hwf) (le_n num))
    as (_ & _ & _ & Hlt).
  destruct (Hlt i Hi) as [Hv Hp]. rewrite Hv, Hp.
  rewrite (stepped_velocity_same num i _ _ (LOOP1_same num m Hwf)).
  rewrite (stepped_position_same num i _ _ (LOOP1_same num m Hwf)).
  split; reflexivity.
Qed.

Lemma wf_timestep num m : wf num m -> wf num (timestep num m).
Proof.
  intros Hwf. unfold timestep, LOOP2.
  apply (LOOP2_prefix num (LOOP1 num m) num (wf_LOOP1 num m Hwf) (le_n num)).
Qed.

Lemma wf_timesteps_from num t m : wf num m -> wf num (timesteps_from num t m).
Proof.
  intros Hwf. unfold timesteps_from.
  apply (for_loop_inv (fun _ mk => wf num mk)); [exact Hwf|].
  intros k mk _ Hk. apply wf_timestep, Hk.
Qed.

(** The arrays a time step leaves alone, whatever the memory. *)
Lemma LOOP1_keeps num m a : src a = a -> LOOP1 num m a = m a.
Proof.
  intros Ha. unfold LOOP1.
  apply (for_loop_inv (fun _ mk => mk a = m a)); [reflexivity|].
  intros i mi _ Hmi. rewrite LOOP1_body_src by exact Ha. exact Hmi.
Qed.

Lemma LOOP2_keeps num m a k : frozen a = true -> for_loop k (LOOP2_body num) m a = m a.
Proof.
  intros Ha.
  apply (for_loop_inv (fun _ mk => mk a = m a)); [reflexivity|].
  intros i mi _ Hmi. rewrite LOOP2_body_frozen by exact Ha. exact Hmi.
Qed.

Lemma timestep_mass num m : timestep num m a_mass = m a_mass.
Proof.
  unfold timestep, LOOP2. rewrite LOOP2_keeps by reflexivity.
  apply LOOP1_keeps. reflexivity.
Qed.

Lemma timesteps_from_mass num t m : timesteps_from num t m a_mass = m a_mass.
Proof.
  unfold timesteps_from.
  apply (for_loop_inv (fun _ mk => mk a_mass = m a_mass)); [reflexivity|].
  intros k mk _ Hk. rewrite timestep_mass. exact Hk.
Qed.
End Step.

(** ** The driver *)

Section Driver.
Context {D : Type} {A : Arith D}.
Local Open Scope dbl_scope.
Implicit Types (m : mem D) (a b : arr) (i j num : nat) (e : env).

Lemma init_rc e num m k : fst (fst (init e num m k)) = 0%Z.
Proof. unfold init. destruct (for_loop num (init_body e) (m, k)). reflexivity. Qed.

(** [calc_centre_mass] overwrites [com]: what [com] held is of no account,
    and the second pass over [axis] repeats the first. *)
Lemma calc_centre_mass_single_pass (com com' : vec3 D) (x y z mass : list D)
    (totalMass : D) (N : nat) :
  calc_centre_mass com x y z mass totalMass N = com_pass x y z mass totalMass N com'.
Proof. reflexivity. Qed.

Lemma centre_of_com m (com com' : vec3 D) (totalMass : D) num :
  centre_of m com totalMass num = centre_of m com' totalMass num.
Proof. reflexivity. Qed.

Lemma centre_of_same m m' (com : vec3 D) (totalMass : D) num :
  same_arrays m m' -> centre_of m com totalMass num = centre_of m' com totalMass num.
Proof. intros H. unfold centre_of. rewrite !H. reflexivity. Qed.

Lemma total_mass_same num m m' : m a_mass = m' a_mass -> total_mass num m = total_mass num m'.
Proof.
  intros H. unfold total_mass. apply for_loop_ext. intros i s _.
  unfold ld. rewrite H. reflexivity.
Qed.

Lemma timesteps_from_S num t m :
  timesteps_from num (S t) m = timestep num (timesteps_from num t m).
Proof. unfold timesteps_from. rewrite for_loop_S. reflexivity. Qed.

(** The time loop: the memory, [com] and the output after [t] steps. *)
Lemma time_loop_shape num (totalMass : D) t m (com : vec3 D) (out : list (event D)) :
  for_loop t (time_body num totalMass) (m, com, out) =
    (timesteps_from num t m,
     match t with
     | 0 => com
     | S _ => centre_of (timesteps_from num t m) zero3 totalMass num
     end,
     out ++ map (report num totalMass m) (seq 0 t)).
Proof.
  induction t as [|t IH].
  - rewrite for_loop_0. simpl. rewrite app_nil_r. reflexivity.
  - rewrite for_loop_S, IH. unfold time_body.
    rewrite <- timesteps_from_S, seq_S, map_app, app_assoc. reflexivity.
Qed.

(** What [main] returns and prints, for the values [num] and [timesteps]
    of lines 33-34. *)
Lemma main_body_shape num timesteps e :
  main_body num timesteps e =
    if malloc_ok e then
      let m := initial_memory e num in
      let totalMass := total_mass num m in
      (0%Z,
       [PrintInitializing num; PrintMalloced; PrintInitComplete;
        PrintCom0 (centre_of m zero3 totalMass num); PrintIntegrate timesteps]
       ++ map (report num totalMass m) (seq 0 timesteps)
       ++ [PrintElapsed num timesteps;
           PrintCom (centre_of (timesteps_from num timesteps m) zero3 totalMass num)])
    else ((-99)%Z, [PrintInitializing num; PrintMallocError]).
Proof.
  unfold main_body, initial_memory.
  destruct (malloc_ok e); [|reflexivity]. simpl negb. cbv iota.
  pose proof (init_rc e num (malloc_all num) 0) as Hrc.
  destruct (init e num (malloc_all num) 0) as [[rc m] k]. simpl in Hrc. subst rc.
  simpl. rewrite time_loop_shape.
  rewrite <- !app_assoc. reflexivity.
Qed.

(** The time loop that recomputes the total mass takes the same steps and
    prints the same lines. *)
Lemma time_loop_recomputing num t m (com : vec3 D) (out : list (event D)) :
  for_loop t (time_body_recomputing num) (m, com, out) =
  for_loop t (time_body num (total_mass num m)) (m, com, out).
Proof.
  induction t as [|t IH]; [reflexivity|].
  rewrite !for_loop_S, IH, time_loop_shape.
  unfold time_body_recomputing, time_body.
  rewrite (total_mass_same num (timestep num (timesteps_from num t m)) m)
    by (rewrite timestep_mass; apply timesteps_from_mass).
  reflexivity.
Qed.

Lemma main_body_recomputing_eq num timesteps e :
  main_body_recomputing num timesteps e = main_body num timesteps e.
Proof.
  unfold main_body_recomputing, main_body.
  destruct (malloc_ok e); [|reflexivity]. simpl negb. cbv iota.
  destruct (init e num (malloc_all num) 0) as [[rc m] k].
  destruct (negb (rc =? 0)%Z); [reflexivity|]. cbv zeta.
  rewrite time_loop_recomputing, time_loop_shape.
  rewrite (total_mass_same num (timesteps_from num timesteps m) m)
    by apply timesteps_from_mass.
  reflexivity.
Qed.


Lemma no_init_error_reports num (totalMass : D) m t :
  existsb is_init_error (map (report num totalMass m) (seq 0 t)) = false.
Proof.
  induction (seq 0 t) as [|k l IH]; [reflexivity|]. simpl. exact IH.
Qed.
End Driver.

Lemma main_unfold {D : Type} {A : Arith D} (argc : Z) (argv : list string) (e : env) :
  @main D A argc argv e = main_body NUM TS e.
Proof. reflexivity. Qed.

Lemma existsb_init_error_main_body {D : Type} {A : Arith D} (num timesteps : nat) (e : env) :
  existsb is_init_error (snd (@main_body D A num timesteps e)) = false.
Proof.
  rewrite main_body_shape. destruct (malloc_ok e); [|reflexivity].
  cbv zeta. cbn [snd]. rewrite !existsb_app, no_init_error_reports. reflexivity.
Qed.

Lemma status_main_body {D : Type} {A : Arith D} (num timesteps : nat) (e : env) :
  fst (@main_body D A num timesteps e) = (if malloc_ok e then 0 else -99)%Z.
Proof. rewrite main_body_shape. destruct (malloc_ok e); reflexivity. Qed.



(** ** [init] *)

Section Init.
Context {D : Type} {A : Arith D}.
Local Open Scope dbl_scope.
Implicit Types (m : mem D) (a b : arr) (i j num k : nat) (e : env).

Lemma init_body_wf e num i m k :
  wf num m -> wf num (fst (init_body e i (m, k))).
Proof. intros Hwf. unfold init_body, rand. cbn [fst]. repeat apply wf_st. exact Hwf. Qed.

Lemma init_body_other e i j m k a :
  j <> i -> ld a j (fst (init_body e i (m, k))) = ld a j m.
Proof.
  intros Hne. unfold init_body, rand. cbn [fst].
  rewrite !ld_st_idx by exact Hne. reflexivity.
Qed.

(** What the body of the loop of [init] stores for particle [i], from
    the seven values that [rand()] returns from its [k]-th call on. *)
Lemma init_body_stores e num i m k :
  wf num m -> i < num ->
  ld a_x i (fst (init_body e i (m, k))) =
    sample e (- dlit 50) (dlit 100) (rand_seq e k) /\
  ld a_y i (fst (init_body e i (m, k))) =
    sample e (- dlit 50) (dlit 100) (rand_seq e (1 + k)) /\
  ld a_z i (fst (init_body e i (m, k))) =
    sample e (dlit 0) (dlit 100) (rand_seq e (2 + k)) /\
  ld a_vx i (fst (init_body e i (m, k))) =
    sample e (- dlit 5) (dlit 2 * dlit 5) (rand_seq e (3 + k)) /\
  ld a_vy i (fst (init_body e i (m, k))) =
    sample e (- dlit 5) (dlit 2 * dlit 5) (rand_seq e (4 + k)) /\
  ld a_vz i (fst (init_body e i (m, k))) =
    sample e (- dlit 5) (dlit 2 * dlit 5) (rand_seq e (5 + k)) /\
  ld a_mass i (fst (init_body e i (m, k))) =
    sample e (dlit 0.1) (dof_int 10) (rand_seq e (6 + k)).
Proof.
  intros Hwf Hi. unfold init_body, rand, sample. cbn [fst].
  assert (Hlen : forall m' b, wf num m' -> i < length (m' b))
    by (intros m' b Hm'; rewrite Hm'; exact Hi).
  repeat match goal with
  | |- context [ld ?a i (st ?a i ?v ?m')] =>
      rewrite (ld_st_eq a i v m') by (apply Hlen; repeat apply wf_st; exact Hwf)
  | |- context [ld ?b i (st ?a i ?v ?m')] =>
      rewrite (ld_st_arr a b i i v m') by discriminate
  end.
  repeat split; reflexivity.
Qed.

Lemma wf_malloc_all num : wf num (@malloc_all D A num).
Proof. intros a. apply length_replicate. Qed.

(** An invariant of the loop of [init]: what holds of every particle
    once the body has stored it holds of all particles below [n]. *)
Lemma init_loop_inv (P : nat -> mem D -> Prop) e num m k :
  wf num m ->
  (forall i m' k', wf num m' -> i < num -> P i (fst (init_body e i (m', k')))) ->
  (forall i j m' k', j <> i -> P j m' -> P j (fst (init_body e i (m', k')))) ->
  forall i, i < num -> P i (snd (fst (init e num m k))).
Proof.
  intros Hwf Hthis Hother i Hi. unfold init.
  pose (Q := fun (n : nat) (s : mem D * nat) =>
    wf num (fst s) /\ forall j, j < n -> P j (fst s)).
  assert (HQ : Q num (for_loop num (init_body e) (m, k))).
  { apply for_loop_inv.
    - split; [exact Hwf|]. intros j Hj. lia.
    - intros n [mn kn] Hn [Hwfn Hbelow]. cbn [fst] in *. split.
      + apply init_body_wf, Hwfn.
      + intros j Hj. destruct (decide (j = n)) as [->|Hjn].
        * apply Hthis; assumption.
        * apply Hother; [exact Hjn|]. apply Hbelow. lia. }
  destruct (for_loop num (init_body e) (m, k)) as [mn kn].
  apply HQ, Hi.
Qed.

(** [init] for a single particle. *)
Lemma initial_memory_1 e :
  @initial_memory D A e 1 = fst (init_body e 0 (malloc_all 1, 0)).
Proof.
  unfold initial_memory, init. rewrite for_loop_S, for_loop_0.
  destruct (init_body e 0 (malloc_all 1, 0)). reflexivity.
Qed.
Lemma init_body_calls e i m k : snd (init_body e i (m, k)) = (7 + k)%nat.
Proof. reflexivity. Qed.

Lemma init_sampling_order e num m k i :
  wf num m -> i < num ->
  stored_in_order e k i (snd (fst (init e num m k))) /\
  snd (init e num m k) = (k + 7 * num)%nat.
Proof.
  intros Hwf Hi. unfold init.
  pose (Q := fun (n : nat) (s : mem D * nat) =>
    wf num (fst s) /\ snd s = (k + 7 * n)%nat /\
    forall j, j < n -> stored_in_order e k j (fst s)).
  assert (HQ : Q num (for_loop num (init_body e) (m, k))).
  { apply for_loop_inv.
    - split; [exact Hwf|]. split; [simpl; lia|]. intros j Hj. lia.
    - intros n [mn kn] Hn (Hwfn & Hkn & Hbelow). cbn [fst snd] in *.
      split; [apply init_body_wf, Hwfn|].
      split; [rewrite init_body_calls; lia|].
      intros j Hj. destruct (decide (j = n)) as [->|Hjn].
      + subst kn. exact (init_body_stores e num n mn _ Hwfn Hn).
      + unfold stored_in_order. rewrite !init_body_other by exact Hjn.
        apply Hbelow. lia. }
  destruct (for_loop num (init_body e) (m, k)) as [mn kn].
  destruct HQ as (_ & Hkn & Hbelow). cbn [fst snd] in *.
  split; [apply Hbelow, Hi | exact Hkn].
Qed.
End Init.

(** ** Exact arithmetic *)

Module Exact.
Local Open Scope R_scope.
Implicit Types (m : mem R) (a b : arr) (i j num : nat).

Lemma dlit_0 : @dlit R _ 0 = 0.
Proof. to_R. unfold Q2R. simpl. lra. Qed.

Lemma dlit_floor : @dlit R _ 0.01 = 0.01.
Proof. to_R. unfold Q2R. simpl. lra. Qed.

Lemma zero3_R : @zero3 R _ = (0, 0, 0).
Proof. unfold zero3. rewrite dlit_0. reflexivity. Qed.

(** Vectors. *)
Lemma vadd_comm (p q : vec3 R) : Spec.vadd p q = Spec.vadd q p.
Proof. destruct p as [[p0 p1] p2], q as [[q0 q1] q2]. simpl. f_equal; [f_equal|]; ring. Qed.

Lemma vadd_assoc (p q r : vec3 R) :
  Spec.vadd p (Spec.vadd q r) = Spec.vadd (Spec.vadd p q) r.
Proof.
  destruct p as [[p0 p1] p2], q as [[q0 q1] q2], r as [[r0 r1] r2]. simpl.
  f_equal; [f_equal|]; ring.
Qed.

Lemma vadd_0_l (p : vec3 R) : Spec.vadd (0, 0, 0) p = p.
Proof. destruct p as [[p0 p1] p2]. simpl. f_equal; [f_equal|]; ring. Qed.

Lemma vadd_0_r (p : vec3 R) : Spec.vadd p (0, 0, 0) = p.
Proof. rewrite vadd_comm. apply vadd_0_l. Qed.

Lemma vsum_snoc (l : list (vec3 R)) (p : vec3 R) :
  Spec.vsum (l ++ [p]) = Spec.vadd (Spec.vsum l) p.
Proof.
  induction l as [|q l IH].
  - change (Spec.vadd p (0, 0, 0) = Spec.vadd (0, 0, 0) p). apply vadd_comm.
  - change (Spec.vadd q (Spec.vsum (l ++ [p])) = Spec.vadd (Spec.vadd q (Spec.vsum l)) p).
    rewrite IH. apply vadd_assoc.
Qed.

Lemma others_S num i :
  Spec.others (S num) i =
    Spec.others num i ++ (if decide (num <> i) then [num] else []).
Proof.
  unfold Spec.others. rewrite seq_S, filter_app. f_equal.
Qed.

Lemma elem_of_others num i j : j ∈ Spec.others num i -> j <> i /\ (j < num)%nat.
Proof.
  unfold Spec.others. rewrite list_elem_of_filter, list_elem_of_In, in_seq. lia.
Qed.

(** The softened distance: the conditional of line 119 is a maximum. *)
Lemma pair_d_softened i j m :
  pair_d i j m = Spec.softened (Spec.vsub (old_position j m) (position i m)).
Proof.
  unfold pair_d, pair_delta, Spec.softened, Spec.vnorm, Spec.vsub, old_position, position.
  rewrite dlit_floor. to_R.
  set (t := R_sqrt.sqrt _). unfold Rmax.
  destruct (Rlt_dec 0.01 t) as [Hlt|Hge], (Rle_dec t 0.01) as [Hle|Hgt];
    try reflexivity; lra.
Qed.

Lemma pair_F_force i j m :
  pair_F i j m =
    Spec.force GRAVCONST (ld a_mass i m) (ld a_old_mass j m)
      (Spec.softened (Spec.vsub (old_position j m) (position i m))).
Proof.
  unfold pair_F, Spec.force. rewrite pair_d_softened. to_R.
  set (d := Spec.softened _). replace (d ^ 2) with (d * d) by ring. reflexivity.
Qed.

(** The acceleration of lines 122-124 is the contribution
    [(F / mass_i) * (d / d)] of the specification. *)
Lemma pair_accel_contribution i j m :
  pair_accel i j m =
    Spec.contribution GRAVCONST (ld a_mass i m) (ld a_old_mass j m)
      (position i m) (old_position j m).
Proof.
  unfold pair_accel, Spec.contribution. rewrite pair_F_force, pair_d_softened.
  unfold pair_delta, old_position, position. cbn [Spec.vsub Spec.vscale]. to_R.
  set (d := Spec.softened _). set (F := Spec.force _ _ _ _).
  unfold Rdiv. f_equal; [f_equal|]; ring.
Qed.

(** With [mass_i] not zero it cancels. *)
Lemma contribution_cancels (G mass_i old_mass_j : R) (old_pos_i old_pos_j : vec3 R) :
  mass_i <> 0 ->
  Spec.contribution G mass_i old_mass_j old_pos_i old_pos_j =
  Spec.contribution_cancelled G old_mass_j old_pos_i old_pos_j.
Proof.
  intros Hm. unfold Spec.contribution, Spec.contribution_cancelled, Spec.force.
  set (d := Spec.softened _). f_equal. unfold Rdiv.
  set (k := / d ^ 2). field. exact Hm.
Qed.

(** The loop over [j] sums the accelerations over the other particles. *)
Lemma inner_loop_sum num i m :
  inner_loop num i m = Spec.vsum (map (fun j => pair_accel i j m) (Spec.others num i)).
Proof.
  unfold inner_loop. induction num as [|num IH].
  - rewrite for_loop_0, !dlit_0. reflexivity.
  - rewrite for_loop_S, IH, others_S, map_app.
    unfold inner_body. destruct (decide (num <> i)) as [Hne|Heq].
    + simpl map. rewrite vsum_snoc.
      destruct (Spec.vsum _) as [[s0 s1] s2], (pair_accel i num m) as [[ax ay] az].
      reflexivity.
    + simpl map. rewrite app_nil_r. reflexivity.
Qed.

(** Lines 132-139 from the snapshot are steps 3 and 4 of the
    specification. *)
Lemma stepped_velocity_spec num i m :
  stepped_velocity num i (snap m) = Spec.new_velocity GRAVCONST num i m.
Proof.
  unfold stepped_velocity, Spec.new_velocity, Spec.net_acceleration.
  rewrite inner_loop_sum.
  rewrite (map_ext _ _ (fun j => pair_accel_contribution i j (snap m))).
  change (map _ (Spec.others num i)) with
    (map (fun j => Spec.contribution GRAVCONST (ld a_mass i m) (ld a_mass j m)
                     (position i m) (position j m)) (Spec.others num i)).
  destruct (Spec.vsum _) as [[s0 s1] s2]. reflexivity.
Qed.

Lemma stepped_position_spec num i m :
  stepped_position num i (snap m) = Spec.new_position GRAVCONST num i m.
Proof.
  unfold stepped_position, Spec.new_position.
  rewrite stepped_velocity_spec.
  destruct (Spec.new_velocity _ _ _ _) as [[v0 v1] v2]. reflexivity.
Qed.

(** The sum of the contributions does not read [mass_i] when it is not
    zero. *)
Lemma net_acceleration_cancelled (G : R) num i (mass_i : R)
    (old_mass : nat -> R) (old_pos : nat -> vec3 R) :
  mass_i <> 0 ->
  Spec.net_acceleration G num i mass_i old_mass old_pos =
  Spec.vsum (map (fun j => Spec.contribution_cancelled G (old_mass j) (old_pos i) (old_pos j))
               (Spec.others num i)).
Proof.
  intros Hm. unfold Spec.net_acceleration. f_equal.
  apply map_ext. intros j. apply contribution_cancels, Hm.
Qed.

Lemma map_others_ext {B : Type} (f g : nat -> B) num i :
  (forall j, j <> i -> f j = g j) ->
  map f (Spec.others num i) = map g (Spec.others num i).
Proof.
  intros Hfg. apply map_ext_in. intros j Hj.
  apply Hfg. apply list_elem_of_In in Hj. apply elem_of_others in Hj. tauto.
Qed.

(** A single particle: the loop over [j] adds nothing. *)
Lemma inner_loop_alone m : inner_loop 1 0 m = (0, 0, 0).
Proof. rewrite inner_loop_sum. reflexivity. Qed.

Lemma timestep_alone m :
  wf 1 m ->
  velocity 0 (timestep 1 m) = velocity 0 m /\
  position 0 (timestep 1 m) = Spec.vadd (position 0 m) (velocity 0 m).
Proof.
  intros Hwf. destruct (timestep_particle 1 m 0 Hwf (le_n 1)) as [Hv Hp].
  rewrite Hv, Hp. unfold stepped_position, stepped_velocity.
  rewrite inner_loop_alone. unfold velocity, position, Spec.vadd. to_R.
  change (ld a_vx 0 (snap m)) with (ld a_vx 0 m).
  change (ld a_vy 0 (snap m)) with (ld a_vy 0 m).
  change (ld a_vz 0 (snap m)) with (ld a_vz 0 m).
  change (ld a_old_x 0 (snap m)) with (ld a_x 0 m).
  change (ld a_old_y 0 (snap m)) with (ld a_y 0 m).
  change (ld a_old_z 0 (snap m)) with (ld a_z 0 m).
  rewrite !Rplus_0_r. split; reflexivity.
Qed.

(** At the force evaluation for particle [i], LOOP2 has written nothing
    that the evaluation reads. *)
Lemma at_force_evaluation_reads num i m :
  wf num m -> (i <= num)%nat -> reads_agree i (at_force_evaluation num i m) (snap m).
Proof.
  intros Hwf Hi. unfold at_force_evaluation.
  pose proof (LOOP2_prefix num (LOOP1 num m) i (wf_LOOP1 num m Hwf) Hi) as Hinv.
  destruct (LOOP2_inv_reads_agree _ _ _ _ Hinv) as [Hf Hrow].
  pose proof (LOOP1_same num m Hwf) as Hsame.
  split.
  - intros a Ha. rewrite (Hf a Ha). apply Hsame.
  - intros a. rewrite Hrow. unfold ld. rewrite Hsame. reflexivity.
Qed.

Lemma sqr_diff_swap (p q : R) : (p - q) * (p - q) = (q - p) * (q - p).
Proof. ring. Qed.

(** In the snapshot the force on [i] from [j] is the force on [j] from [i]. *)
Lemma pair_F_snap_symmetric i j m : pair_F i j (snap m) = pair_F j i (snap m).
Proof.
  unfold pair_F, pair_d, pair_delta. to_R.
  change (ld a_old_x j (snap m)) with (ld a_x j (snap m)).
  change (ld a_old_y j (snap m)) with (ld a_y j (snap m)).
  change (ld a_old_z j (snap m)) with (ld a_z j (snap m)).
  change (ld a_old_x i (snap m)) with (ld a_x i (snap m)).
  change (ld a_old_y i (snap m)) with (ld a_y i (snap m)).
  change (ld a_old_z i (snap m)) with (ld a_z i (snap m)).
  change (ld a_old_mass j (snap m)) with (ld a_mass j (snap m)).
  change (ld a_old_mass i (snap m)) with (ld a_mass i (snap m)).
  rewrite (sqr_diff_swap (ld a_x j (snap m))), (sqr_diff_swap (ld a_y j (snap m))),
    (sqr_diff_swap (ld a_z j (snap m))).
  set (d := if Rlt_dec _ _ then _ else _). unfold Rdiv. ring.
Qed.

(** [(double)rand() * recip] lies between 0 and 1, both included. *)
Lemma unit_sample e k :
  env_ok e -> 0 <= IZR (rand_seq e k) * / IZR (RAND_MAX e) <= 1.
Proof.
  intros [HM Hr]. specialize (Hr k).
  assert (0 < IZR (RAND_MAX e)) by (apply IZR_lt; lia).
  assert (0 <= IZR (rand_seq e k) <= IZR (RAND_MAX e))
    by (split; apply IZR_le; lia).
  split.
  - apply Rmult_le_pos; [lra|]. left. apply Rinv_0_lt_compat. lra.
  - apply (Rmult_le_reg_r (IZR (RAND_MAX e))); [lra|].
    rewrite Rmult_assoc, Rinv_l by lra. lra.
Qed.


(** The sum of line 197 is the weighted sum of the specification. *)
Lemma weighted_sum_S (mass pos : list R) (N : nat) :
  Spec.weighted_sum mass pos (S N) = Spec.weighted_sum mass pos N + rd mass N * rd pos N.
Proof.
  unfold Spec.weighted_sum. rewrite seq_S, map_app, fold_right_app.
  generalize (map (fun i => rd mass i * rd pos i) (seq 0 N)). intros l.
  cbn [map fold_right Nat.add]. induction l as [|r l IH]; simpl; [ring|].
  rewrite IH. ring.
Qed.

Lemma com_loop_sums (x y z mass : list R) (N : nat) :
  for_loop N (com_body x y z mass) (0, 0, 0) =
    (Spec.weighted_sum mass x N, Spec.weighted_sum mass y N, Spec.weighted_sum mass z N).
Proof.
  induction N as [|N IH]; [reflexivity|].
  rewrite for_loop_S, IH, !weighted_sum_S. reflexivity.
Qed.

Lemma com_pass_weighted (x y z mass : list R) (totalMass : R) (N : nat) (com : vec3 R) :
  com_pass x y z mass totalMass N com =
    (Spec.weighted_sum mass x N / totalMass,
     Spec.weighted_sum mass y N / totalMass,
     Spec.weighted_sum mass z N / totalMass).
Proof. unfold com_pass. rewrite dlit_0, com_loop_sums. reflexivity. Qed.

(** A sample lies between [lo] and [lo + width], both included. *)
Lemma sample_bounds e (lo width : R) k :
  env_ok e -> 0 <= width ->
  lo <= sample e lo width (rand_seq e k) <= lo + width.
Proof.
  intros He Hw. pose proof (unit_sample e k He) as Hu.
  unfold sample. to_R. unfold Q2R, Rdiv. cbn [Qnum Qden].
  rewrite Rinv_1, !Rmult_1_l, Rmult_assoc.
  set (u := IZR (rand_seq e k) * / IZR (RAND_MAX e)) in *. nra.
Qed.

(** The largest sample is [lo + width]. *)
Lemma sample_top (lo width : R) :
  @sample R _ env_top lo width 2147483647 = lo + width.
Proof.
  unfold sample. to_R. unfold Q2R, Rdiv. cbn [Qnum Qden RAND_MAX env_top].
  rewrite Rinv_1, !Rmult_1_l, Rmult_assoc, Rinv_r; [ring|].
  apply not_0_IZR. discriminate.
Qed.

Lemma Q2R_literals :
  Q2R 50 = 50 /\ Q2R 100 = 100 /\ Q2R 5 = 5 /\ Q2R 2 = 2 /\ Q2R 0 = 0.
Proof. unfold Q2R. cbn [Qnum Qden]. repeat split; lra. Qed.

Lemma in_ranges_other e i j (m : mem R) k :
  j <> i -> in_ranges j m -> in_ranges j (fst (init_body e i (m, k))).
Proof. intros Hne. unfold in_ranges. rewrite !init_body_other by exact Hne. tauto. Qed.

Lemma in_ranges_this e num i (m : mem R) k :
  env_ok e -> wf num m -> (i < num)%nat -> in_ranges i (fst (init_body e i (m, k))).
Proof.
  intros He Hwf Hi.
  destruct (init_body_stores e num i m k Hwf Hi)
    as (Hx & Hy & Hz & Hvx & Hvy & Hvz & Hm).
  unfold in_ranges. rewrite Hx, Hy, Hz, Hvx, Hvy, Hvz, Hm.
  destruct Q2R_literals as (L50 & L100 & L5 & L2 & L0).
  to_R. rewrite L50, L100, L5, L2, L0.
  pose proof (fun lo w k => sample_bounds e lo w k He) as Hb.
  repeat split;
    match goal with
    | |- context [sample e ?lo ?w (rand_seq e ?k)] =>
        destruct (Hb lo w k ltac:(lra)); lra
    end.
Qed.


(** Two particles. *)

Lemma others_2_0 : Spec.others 2 0 = [1%nat].
Proof. reflexivity. Qed.

Lemma others_2_1 : Spec.others 2 1 = [0%nat].
Proof. reflexivity. Qed.

Lemma vnorm_vsub_swap (p q : vec3 R) :
  Spec.vnorm (Spec.vsub p q) = Spec.vnorm (Spec.vsub q p).
Proof.
  destruct p as [[p0 p1] p2], q as [[q0 q1] q2]. cbn [Spec.vsub Spec.vnorm].
  f_equal. ring.
Qed.

(** Newton's third law for the cancelled contributions: weighted by the
    masses, the two accelerations of a pair sum to zero. *)
Lemma contributions_opposite (G mass_0 mass_1 : R) (p0 p1 : vec3 R) :
  Spec.vadd
    (Spec.vscale mass_0 (Spec.contribution_cancelled G mass_1 p0 p1))
    (Spec.vscale mass_1 (Spec.contribution_cancelled G mass_0 p1 p0)) = (0, 0, 0).
Proof.
  unfold Spec.contribution_cancelled, Spec.softened.
  rewrite (vnorm_vsub_swap p0 p1).
  set (d := Rmax _ _).
  destruct p0 as [[x0 y0] z0], p1 as [[x1 y1] z1].
  cbn [Spec.vsub Spec.vscale Spec.vadd]. unfold Rdiv.
  f_equal; [f_equal|]; ring.
Qed.

Lemma new_velocity_2_0 m :
  ld a_mass 0 m <> 0 ->
  Spec.new_velocity GRAVCONST 2 0 m =
    Spec.vadd (velocity 0 m)
      (Spec.contribution_cancelled GRAVCONST (ld a_mass 1 m) (position 0 m) (position 1 m)).
Proof.
  intros Hm. unfold Spec.new_velocity.
  rewrite net_acceleration_cancelled by exact Hm.
  rewrite others_2_0. cbn [map Spec.vsum fold_right]. rewrite vadd_0_r. reflexivity.
Qed.

Lemma new_velocity_2_1 m :
  ld a_mass 1 m <> 0 ->
  Spec.new_velocity GRAVCONST 2 1 m =
    Spec.vadd (velocity 1 m)
      (Spec.contribution_cancelled GRAVCONST (ld a_mass 0 m) (position 1 m) (position 0 m)).
Proof.
  intros Hm. unfold Spec.new_velocity.
  rewrite net_acceleration_cancelled by exact Hm.
  rewrite others_2_1. cbn [map Spec.vsum fold_right]. rewrite vadd_0_r. reflexivity.
Qed.

Lemma vscale_vadd (c : R) (p q : vec3 R) :
  Spec.vscale c (Spec.vadd p q) = Spec.vadd (Spec.vscale c p) (Spec.vscale c q).
Proof.
  destruct p as [[p0 p1] p2], q as [[q0 q1] q2]. cbn [Spec.vscale Spec.vadd].
  f_equal; [f_equal|]; ring.
Qed.

Lemma vadd_swap4 (a b c d : vec3 R) :
  Spec.vadd (Spec.vadd a b) (Spec.vadd c d) = Spec.vadd (Spec.vadd a c) (Spec.vadd b d).
Proof.
  destruct a as [[a0 a1] a2], b as [[b0 b1] b2], c as [[c0 c1] c2], d as [[d0 d1] d2].
  cbn [Spec.vadd]. f_equal; [f_equal|]; ring.
Qed.

(** One time step of two particles keeps the momentum and moves the
    mass-weighted position by it. *)
Lemma timestep_momentum2 m :
  wf 2 m -> ld a_mass 0 m <> 0 -> ld a_mass 1 m <> 0 ->
  momentum2 (timestep 2 m) = momentum2 m /\
  weighted_position2 (timestep 2 m) = Spec.vadd (weighted_position2 m) (momentum2 m).
Proof.
  intros Hwf Hm0 Hm1.
  destruct (timestep_particle 2 m 0 Hwf ltac:(lia)) as [Hv0 Hp0].
  destruct (timestep_particle 2 m 1 Hwf ltac:(lia)) as [Hv1 Hp1].
  rewrite stepped_velocity_spec in Hv0, Hv1.
  rewrite stepped_position_spec in Hp0, Hp1. unfold Spec.new_position in Hp0, Hp1.
  rewrite new_velocity_2_0 in Hv0, Hp0 by exact Hm0.
  rewrite new_velocity_2_1 in Hv1, Hp1 by exact Hm1.
  assert (Hmom : momentum2 (timestep 2 m) = momentum2 m).
  { unfold momentum2, ld. rewrite timestep_mass. fold (ld a_mass 0 m) (ld a_mass 1 m).
    rewrite Hv0, Hv1, !vscale_vadd, vadd_swap4, contributions_opposite.
    apply vadd_0_r. }
  split; [exact Hmom|].
  unfold weighted_position2, ld. rewrite timestep_mass. fold (ld a_mass 0 m) (ld a_mass 1 m).
  rewrite Hp0, Hp1, !vscale_vadd, vadd_swap4.
  rewrite (vadd_swap4 (Spec.vscale _ (velocity 0 m))), contributions_opposite, vadd_0_r.
  reflexivity.
Qed.

Lemma weighted_position2_sums m :
  weighted_position2 m =
    (Spec.weighted_sum (m a_mass) (m a_x) 2,
     Spec.weighted_sum (m a_mass) (m a_y) 2,
     Spec.weighted_sum (m a_mass) (m a_z) 2).
Proof.
  unfold weighted_position2, position, Spec.weighted_sum, ld.
  cbn [seq map fold_right Spec.vscale Spec.vadd].
  f_equal; [f_equal|]; ring.
Qed.

Lemma centre_of_weighted_position2 m (com : vec3 R) (totalMass : R) :
  centre_of m com totalMass 2 = Spec.vscale (/ totalMass) (weighted_position2 m).
Proof.
  unfold centre_of. rewrite (calc_centre_mass_single_pass com com), com_pass_weighted.
  rewrite weighted_position2_sums. cbn [Spec.vscale]. unfold Rdiv.
  f_equal; [f_equal|]; ring.
Qed.
End Exact.

(** ** Schedules, fresh storage and [output_particles] *)

Section Orders.
Context {D : Type} {A : Arith D}.
Local Open Scope dbl_scope.
Implicit Types (m : mem D) (a b : arr) (i j n num : nat) (e : env).

Lemma LOOP2_sched_step num m done mk i :
  LOOP2_sched_inv num m done mk -> i ∉ done -> i < num ->
  LOOP2_sched_inv num m (done ++ [i]) (LOOP2_body num i mk).
Proof.
  intros (Hwf & Hf & Hout & Hin) Hi Hlt.
  assert (Hagree : reads_agree i mk m) by (split; [exact Hf | intros a; apply Hout, Hi]).
  assert (Hv : stepped_velocity num i mk = stepped_velocity num i m).
  { unfold stepped_velocity. rewrite (inner_loop_agree num i mk m Hagree).
    rewrite !Hout by exact Hi. reflexivity. }
  assert (Hp : stepped_position num i mk = stepped_position num i m).
  { unfold stepped_position. rewrite Hv.
    rewrite !(reads_agree_frozen i i mk m _ Hagree) by reflexivity. reflexivity. }
  split; [|split; [|split]].
  - intros a. rewrite length_LOOP2_body. apply Hwf.
  - intros a Ha. rewrite LOOP2_body_frozen by exact Ha. apply Hf, Ha.
  - intros a j Hj. rewrite not_elem_of_app, list_elem_of_singleton in Hj.
    destruct Hj as [Hj Hji]. rewrite ld_LOOP2_body_other by exact Hji. apply Hout, Hj.
  - intros j Hj. rewrite elem_of_app, list_elem_of_singleton in Hj.
    destruct (decide (j = i)) as [->|Hji].
    + rewrite velocity_LOOP2_body, position_LOOP2_body by assumption.
      rewrite Hv, Hp. split; reflexivity.
    + destruct Hj as [Hj|Hj]; [|contradiction].
      unfold velocity, position. rewrite !ld_LOOP2_body_other by exact Hji.
      apply Hin, Hj.
Qed.

Lemma LOOP2_sched_run num m rest : forall done mk,
  LOOP2_sched_inv num m done mk -> NoDup (done ++ rest) ->
  (forall i, i ∈ rest -> i < num) ->
  LOOP2_sched_inv num m (done ++ rest) (LOOP2_scheduled num rest mk).
Proof.
  induction rest as [|i rest IH]; intros done mk Hinv Hnd Hlt.
  - rewrite app_nil_r. exact Hinv.
  - change (LOOP2_scheduled num (i :: rest) mk)
      with (LOOP2_scheduled num rest (LOOP2_body num i mk)).
    replace (done ++ i :: rest) with ((done ++ [i]) ++ rest) in *
      by (rewrite <- app_assoc; reflexivity).
    apply IH.
    + apply LOOP2_sched_step; [exact Hinv | | apply Hlt; left].
      apply NoDup_app in Hnd as [Hnd _]. apply NoDup_app in Hnd as (_ & Hdis & _).
      intros Hin. apply (Hdis i Hin). left.
    + exact Hnd.
    + intros j Hj. apply Hlt. right. exact Hj.
Qed.

Lemma LOOP2_sched_inv_start num m : wf num m -> LOOP2_sched_inv num m [] m.
Proof.
  intros Hwf. split; [exact Hwf|]. split; [reflexivity|]. split; [reflexivity|].
  intros i Hi. apply elem_of_nil in Hi. contradiction.
Qed.

(** Two memories in which every particle below [num] is stepped from [m]
    have the same arrays. *)
Lemma LOOP2_sched_inv_unique num m l l' mk mk' :
  (forall i, i < num -> i ∈ l) -> (forall i, i < num -> i ∈ l') ->
  LOOP2_sched_inv num m l mk -> LOOP2_sched_inv num m l' mk' ->
  same_arrays mk mk'.
Proof.
  intros Hl Hl' (Hwf & Hf & _ & Hin) (Hwf' & Hf' & _ & Hin') a.
  destruct (frozen a) eqn:Ha; [rewrite Hf, Hf' by exact Ha; reflexivity|].
  apply (list_eq_rd num); [apply Hwf | apply Hwf' |].
  intros i Hi. rewrite !lookup_rd by (rewrite ?Hwf, ?Hwf'; exact Hi). f_equal.
  destruct (Hin i (Hl i Hi)) as [Hv Hp]. destruct (Hin' i (Hl' i Hi)) as [Hv' Hp'].
  rewrite <- Hv' in Hv. rewrite <- Hp' in Hp. unfold velocity, position, ld in Hv, Hp.
  destruct a; try discriminate Ha; congruence.
Qed.

Lemma LOOP2_is_scheduled num m : LOOP2 num m = LOOP2_scheduled num (seq 0 num) m.
Proof. reflexivity. Qed.

Lemma src_src a : src (src a) = src a.
Proof. destruct a; reflexivity. Qed.

Lemma same_particles_snap m m' : same_particles m m' -> same_arrays (snap m) (snap m').
Proof. intros H a. unfold snap. apply H, src_src. Qed.

Lemma same_arrays_st m m' a i (v v' : D) :
  same_arrays m m' -> v = v' -> same_arrays (st a i v m) (st a i v' m').
Proof. intros H -> b. unfold st. rewrite H. reflexivity. Qed.

Lemma same_arrays_ld m m' a i : same_arrays m m' -> ld a i m = ld a i m'.
Proof. intros H. unfold ld. rewrite H. reflexivity. Qed.

Lemma same_arrays_LOOP2_body num i m m' :
  same_arrays m m' -> same_arrays (LOOP2_body num i m) (LOOP2_body num i m').
Proof.
  intros H. unfold LOOP2_body.
  rewrite (inner_loop_agree num i m m' (same_arrays_reads_agree i m m' H)).
  destruct (inner_loop num i m') as [[vxLocal vyLocal] vzLocal]. cbv zeta.
  let rec go :=
    lazymatch goal with
    | |- same_arrays (st _ _ _ ?m1) (st _ _ _ ?m2) =>
        let Hs := fresh "Hs" in
        assert (Hs : same_arrays m1 m2) by go;
        apply same_arrays_st;
        [exact Hs | rewrite ?(same_arrays_ld m1 m2 _ _ Hs); reflexivity]
    | _ => exact H
    end in go.
Qed.

Lemma same_arrays_LOOP2 num m m' : same_arrays m m' -> same_arrays (LOOP2 num m) (LOOP2 num m').
Proof.
  intros H. unfold LOOP2.
  assert (Hk : forall k, same_arrays (for_loop k (LOOP2_body num) m)
                                     (for_loop k (LOOP2_body num) m')).
  { induction k as [|k IH]; [exact H|].
    rewrite !for_loop_S. apply same_arrays_LOOP2_body, IH. }
  apply Hk.
Qed.

(** A time step reads nothing of what the snapshot arrays held before it:
    from the same particles it leaves the same arrays. *)
Lemma timestep_same_particles num m m' :
  wf num m -> wf num m' -> same_particles m m' ->
  same_arrays (timestep num m) (timestep num m').
Proof.
  intros Hwf Hwf' H. unfold timestep. apply same_arrays_LOOP2.
  intros a. rewrite (LOOP1_snapshot num m a Hwf), (LOOP1_snapshot num m' a Hwf').
  apply same_particles_snap, H.
Qed.

Lemma same_arrays_particles m m' : same_arrays m m' -> same_particles m m'.
Proof. intros H a _. apply H. Qed.

Lemma timesteps_from_same_particles num t m m' :
  wf num m -> wf num m' -> same_particles m m' ->
  same_particles (timesteps_from num t m) (timesteps_from num t m').
Proof.
  intros Hwf Hwf' H. induction t as [|t IH]; [exact H|].
  rewrite !timesteps_from_S. apply same_arrays_particles, timestep_same_particles.
  - apply wf_timesteps_from, Hwf.
  - apply wf_timesteps_from, Hwf'.
  - exact IH.
Qed.

Lemma centre_of_same_particles m m' (com com' : vec3 D) (totalMass : D) num :
  same_particles m m' -> centre_of m com totalMass num = centre_of m' com' totalMass num.
Proof.
  intros H. unfold centre_of.
  rewrite (H a_x), (H a_y), (H a_z), (H a_mass) by reflexivity. reflexivity.
Qed.

(** [init] overwrites the particles: from any two well-formed memories it
    leaves the same particles, and well-formed memories. *)
Lemma init_wf e num m k : wf num m -> wf num (snd (fst (init e num m k))).
Proof.
  intros Hwf. unfold init.
  assert (H : wf num (fst (for_loop num (init_body e) (m, k)))).
  { apply (for_loop_inv (fun _ s => wf num (fst s))); [exact Hwf|].
    intros i [mi ki] _ Hi. apply init_body_wf, Hi. }
  destruct (for_loop num (init_body e) (m, k)). exact H.
Qed.

Lemma init_same_particles e num m m' k :
  wf num m -> wf num m' ->
  same_particles (snd (fst (init e num m k))) (snd (fst (init e num m' k))).
Proof.
  intros Hwf Hwf' a Ha.
  apply (list_eq_rd num); [apply init_wf, Hwf | apply init_wf, Hwf' |].
  intros i Hi. rewrite !lookup_rd by (rewrite init_wf by assumption; exact Hi). f_equal.
  destruct (init_sampling_order e num m k i Hwf Hi) as [H _].
  destruct (init_sampling_order e num m' k i Hwf' Hi) as [H' _].
  unfold stored_in_order, ld in H, H'. cbv zeta in H, H'.
  destruct H as (Hx & Hy & Hz & Hvx & Hvy & Hvz & Hm).
  destruct H' as (Hx' & Hy' & Hz' & Hvx' & Hvy' & Hvz' & Hm').
  destruct a; try discriminate Ha; congruence.
Qed.

Lemma main_body_on_shape (heap : mem D) (com0 : vec3 D) num timesteps e :
  main_body_on heap com0 num timesteps e =
    if malloc_ok e then
      let m := snd (fst (init e num heap 0)) in
      let totalMass := total_mass num m in
      (0%Z,
       [PrintInitializing num; PrintMalloced; PrintInitComplete;
        PrintCom0 (centre_of m zero3 totalMass num); PrintIntegrate timesteps]
       ++ map (report num totalMass m) (seq 0 timesteps)
       ++ [PrintElapsed num timesteps;
           PrintCom (centre_of (timesteps_from num timesteps m) zero3 totalMass num)])
    else ((-99)%Z, [PrintInitializing num; PrintMallocError]).
Proof.
  unfold main_body_on.
  destruct (malloc_ok e); [|reflexivity]. simpl negb. cbv iota.
  pose proof (init_rc e num heap 0) as Hrc.
  destruct (init e num heap 0) as [[rc m] k]. simpl in Hrc. subst rc.
  simpl. rewrite time_loop_shape.
  rewrite <- !app_assoc. reflexivity.
Qed.

Lemma output_particles_lines (x y z vx vy vz mass : list D) n :
  output_particles x y z vx vy vz mass n =
    PrintHeading ::
    map (fun i => PrintParticle i (rd x i) (rd y i) (rd z i)
                                  (rd vx i) (rd vy i) (rd vz i) (rd mass i))
        (seq 0 n).
Proof.
  unfold output_particles. induction n as [|n IH]; [reflexivity|].
  rewrite for_loop_S, IH, seq_S, map_app. reflexivity.
Qed.
Lemma lookup_map_seq {B : Type} (f : nat -> B) n i :
  i < n -> map f (seq 0 n) !! i = Some (f i).
Proof.
  intros Hi. change (map f (seq 0 n)) with (f <$> seq 0 n).
  rewrite list_lookup_fmap, lookup_seq_lt by exact Hi. reflexivity.
Qed.

Lemma lines_printed_app (out out' : list (event D)) :
  lines_printed (out ++ out') = (lines_printed out + lines_printed out')%nat.
Proof. unfold lines_printed. rewrite map_app. apply list_sum_app. Qed.

(** Every report of a time step ends its line. *)
Lemma lines_printed_reports num (totalMass : D) m (l : list nat) :
  lines_printed (map (report num totalMass m) l) = length l.
Proof.
  induction l as [|k l IH]; [reflexivity|].
  change (S (lines_printed (map (report num totalMass m) l)) = S (length l)).
  rewrite IH. reflexivity.
Qed.

Lemma omap_printed_mass (f : nat -> line D) (mass : nat -> D) n :
  (forall i, printed_mass (f i) = Some (mass i)) ->
  omap printed_mass (map f (seq 0 n)) = map mass (seq 0 n).
Proof.
  intros H. induction (seq 0 n) as [|i l IH]; [reflexivity|].
  cbn [map omap list_omap]. rewrite H. cbn. rewrite <- IH. reflexivity.
Qed.
End Orders.

(** ** Sums of masses and weighted averages *)

Module Sums.
Import Exact.
Local Open Scope R_scope.
Implicit Types (m : mem R) (f g : nat -> R) (n : nat).

Lemma sum_upto_S f n : sum_upto f (S n) = sum_upto f n + f n.
Proof.
  unfold sum_upto. rewrite seq_S, map_app, fold_right_app.
  generalize (map f (seq 0 n)). intros l.
  cbn [map fold_right Nat.add]. induction l as [|r l IH]; simpl; [ring|].
  rewrite IH. ring.
Qed.

Lemma sum_upto_le f g n :
  (forall i, (i < n)%nat -> f i <= g i) -> sum_upto f n <= sum_upto g n.
Proof.
  intros H. induction n as [|n IH]; [unfold sum_upto; simpl; lra|].
  rewrite !sum_upto_S. specialize (H n ltac:(lia)) as Hn.
  assert (sum_upto f n <= sum_upto g n) by (apply IH; intros i Hi; apply H; lia). lra.
Qed.

Lemma sum_upto_scale f (c : R) n :
  sum_upto (fun i => f i * c) n = sum_upto f n * c.
Proof.
  induction n as [|n IH]; [unfold sum_upto; simpl; ring|].
  rewrite !sum_upto_S, IH. ring.
Qed.

Lemma sum_upto_pos f n :
  (0 < n)%nat -> (forall i, (i < n)%nat -> 0 < f i) -> 0 < sum_upto f n.
Proof.
  intros Hn H. induction n as [|n IH]; [lia|].
  rewrite sum_upto_S. specialize (H n ltac:(lia)) as Hfn.
  destruct n as [|n]; [unfold sum_upto; simpl; lra|].
  assert (0 < sum_upto f (S n)) by (apply IH; [lia | intros i Hi; apply H; lia]). lra.
Qed.

Lemma sum_upto_ext f g n :
  (forall i, (i < n)%nat -> f i = g i) -> sum_upto f n = sum_upto g n.
Proof.
  intros H. induction n as [|n IH]; [reflexivity|].
  rewrite !sum_upto_S, IH, (H n) by (intros; try apply H; lia). reflexivity.
Qed.

(** The loop of lines 72-74 sums the masses. *)
Lemma total_mass_sum num m : total_mass num m = sum_upto (fun i => ld a_mass i m) num.
Proof.
  unfold total_mass. induction num as [|num IH].
  - rewrite for_loop_0. apply dlit_0.
  - rewrite for_loop_S, IH, sum_upto_S. reflexivity.
Qed.

(** A weighted average of values between [lo] and [hi] lies between [lo]
    and [hi]. *)
Lemma weighted_average_between (mass pos : list R) (N : nat) (lo hi : R) :
  (0 < N)%nat ->
  (forall i, (i < N)%nat -> 0 < rd mass i) ->
  (forall i, (i < N)%nat -> lo <= rd pos i <= hi) ->
  lo <= Spec.weighted_sum mass pos N / sum_upto (rd mass) N <= hi.
Proof.
  intros HN Hm Hp.
  pose proof (sum_upto_pos (rd mass) N HN Hm) as Htm.
  change (Spec.weighted_sum mass pos N) with (sum_upto (fun i => rd mass i * rd pos i) N).
  assert (Hlo : sum_upto (rd mass) N * lo <= sum_upto (fun i => rd mass i * rd pos i) N).
  { rewrite <- sum_upto_scale. apply sum_upto_le. intros i Hi.
    specialize (Hm i Hi). specialize (Hp i Hi). nra. }
  assert (Hhi : sum_upto (fun i => rd mass i * rd pos i) N <= sum_upto (rd mass) N * hi).
  { rewrite <- sum_upto_scale. apply sum_upto_le. intros i Hi.
    specialize (Hm i Hi). specialize (Hp i Hi). nra. }
  set (s := sum_upto (fun i => rd mass i * rd pos i) N) in *.
  set (t := sum_upto (rd mass) N) in *.
  split.
  - apply (Rmult_le_reg_r t); [exact Htm|]. unfold Rdiv.
    rewrite Rmult_assoc, Rinv_l by lra. lra.
  - apply (Rmult_le_reg_r t); [exact Htm|]. unfold Rdiv.
    rewrite Rmult_assoc, Rinv_l by lra. lra.
Qed.

Lemma initial_memory_in_ranges e num i :
  env_ok e -> (i < num)%nat -> in_ranges i (@initial_memory R _ e num).
Proof.
  intros He Hi. unfold initial_memory.
  apply (init_loop_inv in_ranges e num (malloc_all num) 0%nat (wf_malloc_all num));
    [| |exact Hi].
  - intros i' m' k' Hwf' Hi'. apply (in_ranges_this e num); assumption.
  - intros i' j m' k' Hne. apply in_ranges_other, Hne.
Qed.

(** The centre of mass of particles of positive mass lies in every box
    that holds them. *)
Lemma centre_of_within m (com lo hi : vec3 R) N :
  (0 < N)%nat ->
  (forall i, (i < N)%nat -> 0 < ld a_mass i m) ->
  (forall i, (i < N)%nat -> within lo hi (position i m)) ->
  within lo hi (centre_of m com (total_mass N m) N).
Proof.
  intros HN Hm Hbox. rewrite total_mass_sum.
  unfold centre_of. rewrite (calc_centre_mass_single_pass com com), com_pass_weighted.
  destruct lo as [[lo0 lo1] lo2], hi as [[hi0 hi1] hi2]. unfold within.
  change (sum_upto (fun i => ld a_mass i m) N) with (sum_upto (rd (m a_mass)) N).
  split; [|split]; apply weighted_average_between; try assumption;
    intros i Hi; specialize (Hbox i Hi); unfold within, position in Hbox;
    unfold ld in Hbox; tauto.
Qed.
End Sums.

(** ** Bounds on the accelerations *)

Module Bounds.
Import Exact.
Local Open Scope R_scope.
Implicit Types (m : mem R) (i j : nat).

Lemma Rabs_le_vnorm (x y z : R) : Rabs x <= R_sqrt.sqrt (x * x + y * y + z * z).
Proof.
  rewrite <- sqrt_Rsqr_abs. apply sqrt_le_1_alt. unfold Rsqr. nra.
Qed.

(** One component of a cancelled contribution. *)
Lemma component_bound (G old_mass_j d w : R) :
  0 <= G -> 0 <= old_mass_j -> 0.01 <= d -> Rabs w <= d ->
  Rabs (G * old_mass_j / d ^ 2 * (/ d * w)) <= G * old_mass_j * 10000.
Proof.
  intros HG Hm Hd Hw.
  assert (Hdpos : 0 < d) by lra.
  assert (Hinv : 0 < / d) by (apply Rinv_0_lt_compat; exact Hdpos).
  assert (Hunit : Rabs (/ d * w) <= 1).
  { rewrite Rabs_mult, (Rabs_pos_eq (/ d)) by lra.
    apply (Rmult_le_reg_l d); [exact Hdpos|].
    rewrite <- Rmult_assoc, Rinv_r, Rmult_1_l, Rmult_1_r by lra. exact Hw. }
  assert (Hsq : / d ^ 2 <= 10000).
  { assert (Hd2 : 0.01 * 0.01 <= d * d) by (apply Rmult_le_compat; lra).
    replace (d ^ 2) with (d * d) by ring.
    apply (Rmult_le_reg_r (d * d)); [lra|].
    rewrite Rinv_l by lra. lra. }
  assert (Hsqpos : 0 < / d ^ 2).
  { apply Rinv_0_lt_compat. replace (d ^ 2) with (d * d) by ring.
    apply Rmult_lt_0_compat; exact Hdpos. }
  assert (Hk : 0 <= G * old_mass_j) by (apply Rmult_le_pos; assumption).
  rewrite Rabs_mult. unfold Rdiv.
  rewrite (Rabs_pos_eq (G * old_mass_j * / d ^ 2)) by (apply Rmult_le_pos; lra).
  pose proof (Rabs_pos (/ d * w)) as Hp.
  set (k := G * old_mass_j) in *. set (u := Rabs (/ d * w)) in *. set (q := / d ^ 2) in *.
  apply Rle_trans with (k * q * 1).
  - apply Rmult_le_compat_l; [apply Rmult_le_pos; lra | exact Hunit].
  - rewrite Rmult_1_r. apply Rmult_le_compat_l; assumption.
Qed.

Lemma fold_left_sum (f : nat -> R) (l : list nat) (c : R) :
  fold_left (fun s i => s + f i) l c = c + fold_right Rplus 0 (map f l).
Proof.
  revert c. induction l as [|i l IH]; intros c; simpl; [ring|].
  rewrite IH. ring.
Qed.

Lemma sum_map_perm (f : nat -> R) (l l' : list nat) :
  l ≡ₚ l' -> fold_right Rplus 0 (map f l) = fold_right Rplus 0 (map f l').
Proof.
  intros H. induction H as [|i l l' _ IH|i j l|l l' l'' _ IH _ IH'].
  - reflexivity.
  - simpl. rewrite IH. reflexivity.
  - simpl. ring.
  - rewrite IH. exact IH'.
Qed.
Implicit Types (p q : vec3 R).

Lemma components_within_vadd (B C : R) p q :
  components_within B p -> components_within C q ->
  components_within (B + C) (Spec.vadd p q).
Proof.
  destruct p as [[p0 p1] p2], q as [[q0 q1] q2]. cbn [components_within Spec.vadd].
  intros (H0 & H1 & H2) (K0 & K1 & K2).
  pose proof (Rabs_triang p0 q0). pose proof (Rabs_triang p1 q1).
  pose proof (Rabs_triang p2 q2). repeat split; lra.
Qed.

Lemma components_within_vsum (b : nat -> R) (g : nat -> vec3 R) (l : list nat) :
  (forall j, In j l -> components_within (b j) (g j)) ->
  components_within (fold_right Rplus 0 (map b l)) (Spec.vsum (map g l)).
Proof.
  intros H. induction l as [|j l IH].
  - cbn [map fold_right Spec.vsum components_within]. rewrite Rabs_R0. lra.
  - cbn [map fold_right]. change (Spec.vsum (g j :: map g l))
      with (Spec.vadd (g j) (Spec.vsum (map g l))).
    apply components_within_vadd; [apply H; left; reflexivity|].
    apply IH. intros k Hk. apply H. right. exact Hk.
Qed.

Lemma sum_scale (c : R) (b : nat -> R) (l : list nat) :
  fold_right Rplus 0 (map (fun j => c * b j) l) = c * fold_right Rplus 0 (map b l).
Proof. induction l as [|j l IH]; cbn [map fold_right]; [ring|]. rewrite IH. ring. Qed.

(** The acceleration that one particle of mass [old_mass_j] gives another
    is at most [10 * old_mass_j] on every axis. *)
Lemma pair_accel_within i j m :
  ld a_mass i m <> 0 -> 0 <= ld a_old_mass j m ->
  components_within (10 * ld a_old_mass j m) (pair_accel i j m).
Proof.
  intros Hmi Hmj.
  rewrite pair_accel_contribution, contribution_cancels by exact Hmi.
  unfold Spec.contribution_cancelled.
  pose proof (Rmax_r (Spec.vnorm (Spec.vsub (old_position j m) (position i m))) 0.01) as Hd.
  pose proof (Rmax_l (Spec.vnorm (Spec.vsub (old_position j m) (position i m))) 0.01) as Hn.
  fold (Spec.softened (Spec.vsub (old_position j m) (position i m))) in Hd, Hn.
  set (d := Spec.softened _) in *.
  destruct (Spec.vsub (old_position j m) (position i m)) as [[dx dy] dz].
  cbn [Spec.vnorm Spec.vscale components_within] in *.
  assert (HG : @GRAVCONST R _ = 0.001) by reflexivity.
  assert (Hx : Rabs dx <= d) by (pose proof (Rabs_le_vnorm dx dy dz); lra).
  assert (Hy : Rabs dy <= d).
  { pose proof (Rabs_le_vnorm dy dx dz) as H.
    replace (dy * dy + dx * dx + dz * dz) with (dx * dx + dy * dy + dz * dz) in H by ring.
    lra. }
  assert (Hz : Rabs dz <= d).
  { pose proof (Rabs_le_vnorm dz dx dy) as H.
    replace (dz * dz + dx * dx + dy * dy) with (dx * dx + dy * dy + dz * dz) in H by ring.
    lra. }
  assert (HG0 : 0 <= @GRAVCONST R _) by (rewrite HG; unfold Q2R; simpl; lra).
  pose proof (component_bound GRAVCONST (ld a_old_mass j m) d dx HG0 Hmj Hd Hx) as Bx.
  pose proof (component_bound GRAVCONST (ld a_old_mass j m) d dy HG0 Hmj Hd Hy) as By.
  pose proof (component_bound GRAVCONST (ld a_old_mass j m) d dz HG0 Hmj Hd Hz) as Bz.
  assert (Hten : @GRAVCONST R _ * ld a_old_mass j m * 10000 = 10 * ld a_old_mass j m)
    by (rewrite HG; unfold Q2R; simpl; field).
  rewrite Hten in Bx, By, Bz. repeat split; assumption.
Qed.

(** Particles at the same place give each other no acceleration. *)
Lemma pair_accel_coincident i j m :
  old_position j m = position i m -> pair_accel i j m = (0, 0, 0).
Proof.
  intros Hsame. unfold old_position, position in Hsame.
  injection Hsame as Hx Hy Hz.
  unfold pair_accel, pair_delta. rewrite Hx, Hy, Hz. to_R. unfold Rdiv.
  f_equal; [f_equal|]; ring.
Qed.

(** What a time step adds to the velocity of a particle. *)
Lemma velocity_change num i m :
  wf num m -> (i < num)%nat ->
  Spec.vsub (velocity i (timestep num m)) (velocity i m) =
    Spec.vsum (map (fun j => pair_accel i j (snap m)) (Spec.others num i)).
Proof.
  intros Hwf Hi. destruct (timestep_particle num m i Hwf Hi) as [Hv _].
  rewrite Hv. unfold stepped_velocity. rewrite inner_loop_sum.
  destruct (Spec.vsum _) as [[ax ay] az]. unfold velocity.
  change (ld a_vx i (snap m)) with (ld a_vx i m).
  change (ld a_vy i (snap m)) with (ld a_vy i m).
  change (ld a_vz i (snap m)) with (ld a_vz i m).
  to_R. cbn [Spec.vsub]. f_equal; [f_equal|]; ring.
Qed.
End Bounds.

(** ** Momentum and the centre of mass of [num] particles *)

Module Many.
Import Exact.
Local Open Scope R_scope.
Implicit Types (m : mem R) (i j n num : nat) (p q : vec3 R).

Lemma vsum_app (l l' : list (vec3 R)) :
  Spec.vsum (l ++ l') = Spec.vadd (Spec.vsum l) (Spec.vsum l').
Proof.
  induction l as [|p l IH].
  - change (Spec.vsum l' = Spec.vadd (0, 0, 0) (Spec.vsum l')). rewrite vadd_0_l. reflexivity.
  - change (Spec.vadd p (Spec.vsum (l ++ l')) =
            Spec.vadd (Spec.vadd p (Spec.vsum l)) (Spec.vsum l')).
    rewrite IH. apply vadd_assoc.
Qed.

Lemma vsum_cons p (l : list (vec3 R)) : Spec.vsum (p :: l) = Spec.vadd p (Spec.vsum l).
Proof. reflexivity. Qed.

Lemma vsum_map_vadd {B : Type} (g h : B -> vec3 R) (l : list B) :
  Spec.vsum (map (fun x => Spec.vadd (g x) (h x)) l) =
  Spec.vadd (Spec.vsum (map g l)) (Spec.vsum (map h l)).
Proof.
  induction l as [|x l IH].
  - change ((0, 0, 0) = Spec.vadd (0, 0, 0) (0, 0, 0)). rewrite vadd_0_l. reflexivity.
  - cbn [map]. rewrite !vsum_cons, IH. apply vadd_swap4.
Qed.

Lemma vsum_map_zero {B : Type} (g : B -> vec3 R) (l : list B) :
  (forall x, In x l -> g x = (0, 0, 0)) -> Spec.vsum (map g l) = (0, 0, 0).
Proof.
  intros H. induction l as [|x l IH]; [reflexivity|].
  cbn [map]. rewrite vsum_cons, H, IH, vadd_0_l by (try left; try intros; auto using in_cons).
  reflexivity.
Qed.

Lemma vscale_vsum (c : R) (l : list (vec3 R)) :
  Spec.vscale c (Spec.vsum l) = Spec.vsum (map (Spec.vscale c) l).
Proof.
  induction l as [|p l IH].
  - cbn [map Spec.vsum fold_right Spec.vscale]. f_equal; [f_equal|]; ring.
  - cbn [map]. rewrite !vsum_cons, vscale_vadd, IH. reflexivity.
Qed.

Lemma filter_all_ne (l : list nat) n :
  (forall j, In j l -> j <> n) -> filter (fun j => j <> n) l = l.
Proof.
  intros H. induction l as [|j l IH]; [reflexivity|].
  rewrite filter_cons_True by (apply H; left; reflexivity).
  rewrite IH by (intros k Hk; apply H; right; exact Hk). reflexivity.
Qed.

Lemma others_self n : Spec.others n n = seq 0 n.
Proof.
  unfold Spec.others. apply filter_all_ne. intros j Hj. apply in_seq in Hj. lia.
Qed.

Lemma others_below n i : (i < n)%nat -> Spec.others (S n) i = Spec.others n i ++ [n].
Proof. intros Hi. rewrite others_S. rewrite decide_True by lia. reflexivity. Qed.

Lemma others_S_self n : Spec.others (S n) n = seq 0 n.
Proof. rewrite others_S, decide_False by lia. rewrite app_nil_r. apply others_self. Qed.

(** The sum over all ordered pairs of an antisymmetric term is zero. *)
Lemma pair_sum_zero (f : nat -> nat -> vec3 R) n :
  (forall i j, Spec.vadd (f i j) (f j i) = (0, 0, 0)) ->
  Spec.vsum (map (fun i => Spec.vsum (map (f i) (Spec.others n i))) (seq 0 n)) = (0, 0, 0).
Proof.
  intros Hanti. induction n as [|n IH]; [reflexivity|].
  rewrite seq_S, map_app, vsum_app. cbn [map Nat.add]. rewrite others_S_self.
  rewrite (map_ext_in _ (fun i => Spec.vadd (Spec.vsum (map (f i) (Spec.others n i))) (f i n))).
  - rewrite vsum_map_vadd, IH, vadd_0_l.
    change (Spec.vsum [Spec.vsum (map (f n) (seq 0 n))])
      with (Spec.vadd (Spec.vsum (map (f n) (seq 0 n))) (0, 0, 0)).
    rewrite vadd_0_r, <- vsum_map_vadd. apply vsum_map_zero. intros i _. apply Hanti.
  - intros i Hi. apply in_seq in Hi. rewrite others_below by lia.
    rewrite map_app, vsum_app. cbn [map]. rewrite vsum_cons.
    change (Spec.vsum []) with ((0, 0, 0) : vec3 R). rewrite vadd_0_r. reflexivity.
Qed.

Lemma new_velocity_cancelled num i m :
  ld a_mass i m <> 0 ->
  Spec.new_velocity GRAVCONST num i m =
    Spec.vadd (velocity i m)
      (Spec.vsum (map (fun j => Spec.contribution_cancelled GRAVCONST (ld a_mass j m)
                                  (position i m) (position j m))
                    (Spec.others num i))).
Proof.
  intros Hm. unfold Spec.new_velocity. rewrite net_acceleration_cancelled by exact Hm.
  reflexivity.
Qed.

(** One time step keeps the momentum and moves the mass-weighted position
    by it. *)
Lemma timestep_momentum num m :
  wf num m -> (forall i, (i < num)%nat -> ld a_mass i m <> 0) ->
  momentum num (timestep num m) = momentum num m /\
  weighted_position num (timestep num m) =
    Spec.vadd (weighted_position num m) (momentum num m).
Proof.
  intros Hwf Hm.
  set (f := fun i j => Spec.vscale (ld a_mass i m)
              (Spec.contribution_cancelled GRAVCONST (ld a_mass j m)
                 (position i m) (position j m))).
  assert (Hmom : momentum num (timestep num m) = momentum num m).
  { unfold momentum.
    rewrite (map_ext_in _ (fun i => Spec.vadd (Spec.vscale (ld a_mass i m) (velocity i m))
                                      (Spec.vsum (map (f i) (Spec.others num i))))).
    - rewrite vsum_map_vadd, pair_sum_zero, vadd_0_r; [reflexivity|].
      intros i j. apply contributions_opposite.
    - intros i Hi. apply in_seq in Hi.
      destruct (timestep_particle num m i Hwf ltac:(lia)) as [Hv _].
      rewrite Hv, stepped_velocity_spec, new_velocity_cancelled by (apply Hm; lia).
      unfold ld at 1. rewrite timestep_mass. fold (ld a_mass i m).
      rewrite vscale_vadd, vscale_vsum, map_map. reflexivity. }
  split; [exact Hmom|].
  unfold weighted_position.
  rewrite (map_ext_in _ (fun i =>
             Spec.vadd (Spec.vscale (ld a_mass i m) (position i m))
                       (Spec.vscale (ld a_mass i (timestep num m))
                                    (velocity i (timestep num m))))).
  - rewrite vsum_map_vadd. fold (momentum num (timestep num m)). rewrite Hmom. reflexivity.
  - intros i Hi. apply in_seq in Hi.
    destruct (timestep_particle num m i Hwf ltac:(lia)) as [Hv Hp].
    rewrite Hp, stepped_position_spec. unfold Spec.new_position.
    rewrite <- stepped_velocity_spec, <- Hv.
    unfold ld at 1 3. rewrite timestep_mass. fold (ld a_mass i m).
    apply vscale_vadd.
Qed.

Lemma weighted_position_sums num m :
  weighted_position num m =
    (Spec.weighted_sum (m a_mass) (m a_x) num,
     Spec.weighted_sum (m a_mass) (m a_y) num,
     Spec.weighted_sum (m a_mass) (m a_z) num).
Proof.
  unfold weighted_position. induction num as [|num IH]; [reflexivity|].
  rewrite seq_S, map_app, vsum_app, IH, !weighted_sum_S.
  cbn [map Nat.add]. rewrite vsum_cons.
  change (Spec.vsum []) with ((0, 0, 0) : vec3 R). rewrite vadd_0_r.
  unfold position, ld. cbn [Spec.vscale Spec.vadd]. reflexivity.
Qed.

Lemma centre_of_weighted_position num m (com : vec3 R) (totalMass : R) :
  centre_of m com totalMass num = Spec.vscale (/ totalMass) (weighted_position num m).
Proof.
  unfold centre_of. rewrite (calc_centre_mass_single_pass com com), com_pass_weighted.
  rewrite weighted_position_sums. cbn [Spec.vscale]. unfold Rdiv.
  f_equal; [f_equal|]; ring.
Qed.

Lemma vscale_vscale (c d : R) p : Spec.vscale c (Spec.vscale d p) = Spec.vscale (c * d) p.
Proof. destruct p as [[p0 p1] p2]. cbn [Spec.vscale]. f_equal; [f_equal|]; ring. Qed.

Lemma vscale_plus (c d : R) p :
  Spec.vscale (c + d) p = Spec.vadd (Spec.vscale c p) (Spec.vscale d p).
Proof. destruct p as [[p0 p1] p2]. cbn [Spec.vscale Spec.vadd]. f_equal; [f_equal|]; ring. Qed.
End Many.

(** ** Angular momentum *)

Module Turning.
Import Exact Many.
Local Open Scope R_scope.
Implicit Types (m : mem R) (i j n num : nat) (p q r v : vec3 R).

Lemma cross_vadd_r p q r : cross p (Spec.vadd q r) = Spec.vadd (cross p q) (cross p r).
Proof.
  destruct p as [[p0 p1] p2], q as [[q0 q1] q2], r as [[r0 r1] r2].
  cbn [cross Spec.vadd]. f_equal; [f_equal|]; ring.
Qed.

(** Moving a particle along its velocity does not change its angular
    momentum. *)
Lemma cross_step p v : cross (Spec.vadd p v) v = cross p v.
Proof.
  destruct p as [[p0 p1] p2], v as [[v0 v1] v2].
  cbn [cross Spec.vadd]. f_equal; [f_equal|]; ring.
Qed.

Lemma cross_vsum {B : Type} p (g : B -> vec3 R) (l : list B) :
  cross p (Spec.vsum (map g l)) = Spec.vsum (map (fun x => cross p (g x)) l).
Proof.
  induction l as [|x l IH].
  - destruct p as [[p0 p1] p2]. cbn [map Spec.vsum fold_right cross].
    f_equal; [f_equal|]; ring.
  - cbn [map]. rewrite !vsum_cons, cross_vadd_r, IH. reflexivity.
Qed.

(** The forces of a pair lie along the line that joins it: their torques
    about the origin sum to zero. *)
Lemma torques_opposite (G mass_0 mass_1 : R) (p0 p1 : vec3 R) :
  Spec.vadd
    (Spec.vscale mass_0 (cross p0 (Spec.contribution_cancelled G mass_1 p0 p1)))
    (Spec.vscale mass_1 (cross p1 (Spec.contribution_cancelled G mass_0 p1 p0))) = (0, 0, 0).
Proof.
  unfold Spec.contribution_cancelled, Spec.softened.
  rewrite (vnorm_vsub_swap p0 p1).
  set (d := Rmax _ _).
  destruct p0 as [[x0 y0] z0], p1 as [[x1 y1] z1].
  cbn [Spec.vsub Spec.vscale Spec.vadd cross]. unfold Rdiv.
  f_equal; [f_equal|]; ring.
Qed.

Lemma timestep_angular_momentum num m :
  wf num m -> (forall i, (i < num)%nat -> ld a_mass i m <> 0) ->
  angular_momentum num (timestep num m) = angular_momentum num m.
Proof.
  intros Hwf Hm.
  set (f := fun i j => Spec.vscale (ld a_mass i m)
              (cross (position i m)
                 (Spec.contribution_cancelled GRAVCONST (ld a_mass j m)
                    (position i m) (position j m)))).
  unfold angular_momentum.
  rewrite (map_ext_in _ (fun i =>
             Spec.vadd (Spec.vscale (ld a_mass i m) (cross (position i m) (velocity i m)))
                       (Spec.vsum (map (f i) (Spec.others num i))))).
  - rewrite vsum_map_vadd, pair_sum_zero, vadd_0_r; [reflexivity|].
    intros i j. apply torques_opposite.
  - intros i Hi. apply in_seq in Hi.
    destruct (timestep_particle num m i Hwf ltac:(lia)) as [Hv Hp].
    rewrite Hp, Hv, stepped_position_spec, stepped_velocity_spec.
    unfold Spec.new_position. rewrite cross_step.
    rewrite new_velocity_cancelled by (apply Hm; lia).
    unfold ld at 1. rewrite timestep_mass. fold (ld a_mass i m).
    rewrite cross_vadd_r, cross_vsum, vscale_vadd, vscale_vsum, map_map. reflexivity.
Qed.
End Turning.

(** ** Frames of reference *)

Module Frames.
Import Exact.
Local Open Scope R_scope.
Implicit Types (m : mem R) (i j num : nat) (p q c u : vec3 R).

Lemma vsub_shift p q c : Spec.vsub (Spec.vadd q c) (Spec.vadd p c) = Spec.vsub q p.
Proof.
  destruct p as [[p0 p1] p2], q as [[q0 q1] q2], c as [[c0 c1] c2].
  cbn [Spec.vadd Spec.vsub]. f_equal; [f_equal|]; ring.
Qed.

Lemma contribution_shift (G mass_i mass_j : R) p q c :
  Spec.contribution G mass_i mass_j (Spec.vadd p c) (Spec.vadd q c) =
  Spec.contribution G mass_i mass_j p q.
Proof. unfold Spec.contribution. rewrite vsub_shift. reflexivity. Qed.

Lemma net_acceleration_boosted c u num m m' i :
  boosted c u num m m' -> (i < num)%nat ->
  Spec.net_acceleration GRAVCONST num i (ld a_mass i m')
    (fun j => ld a_mass j m') (fun j => position j m') =
  Spec.net_acceleration GRAVCONST num i (ld a_mass i m)
    (fun j => ld a_mass j m) (fun j => position j m).
Proof.
  intros H Hi. unfold Spec.net_acceleration. f_equal.
  apply map_ext_in. intros j Hj.
  apply list_elem_of_In, elem_of_others in Hj. destruct Hj as [_ Hj].
  destruct (H i Hi) as (Hpi & _ & Hmi). destruct (H j Hj) as (Hpj & _ & Hmj).
  rewrite Hpi, Hpj, Hmi, Hmj. apply contribution_shift.
Qed.
End Frames.

(** ** Binary64: the program as it runs *)

Module Binary64.
Local Open Scope float_scope.

(** In binary64 too a single particle with a velocity moves. *)
Example lone_particle_moves_binary64 :
  position 0 (timestep 1 lone_particle_binary64) = (1, 0, 0) /\
  velocity 0 (timestep 1 lone_particle_binary64) = (1, 0, 0).
Proof. vm_compute. split; reflexivity. Qed.

(** In binary64 too [init] attains the upper ends when [rand()] returns
    [RAND_MAX]. *)
Example init_upper_bounds_binary64 :
  position 0 (initial_memory env_top 1) = (50, 50, 100) /\
  velocity 0 (initial_memory env_top 1) = (5, 5, 5) /\
  ld a_mass 0 (initial_memory env_top 1) = dlit 10.1.
Proof. vm_compute. repeat split; reflexivity. Qed.

(** X5: in binary64 [mass_i] cancels up to rounding only: the velocity that
    a time step gives particle 0 differs by two units in the last place
    between the masses 1 and 7 of that particle. *)
Example mass_shows_in_rounding :
  velocity 0 (timestep 2 (two_bodies_binary64 1)) =
    (0x1.d208a5a912e31p-14, 0x1.d208a5a912e31p-13, 0x1.d208a5a912e31p-13) /\
  velocity 0 (timestep 2 (two_bodies_binary64 7)) =
    (0x1.d208a5a912e33p-14, 0x1.d208a5a912e33p-13, 0x1.d208a5a912e33p-13).
Proof. vm_compute. split; reflexivity. Qed.

(** A run of [main] from line 36 on, for 2 particles and 1 time step on the
    platform [env_zero]: both particles are drawn at (-50, -50, 0), the
    softening floor keeps their accelerations finite, and they move with
    their initial velocities (-5, -5, -5). *)
Example run_2_1 :
  main_body 2 1 env_zero =
    (0%Z,
     [PrintInitializing 2; PrintMalloced; PrintInitComplete;
      PrintCom0 (-50, -50, 0); PrintIntegrate 1;
      PrintStep 1 (-55, -55, -5);
      PrintElapsed 2 1; PrintCom (-55, -55, -5)]).
Proof. vm_compute. reflexivity. Qed.

Lemma centre_of_empty (m m' : mem float) (com : vec3 float) :
  centre_of m' com (total_mass 0 m) 0 = nan3.
Proof. vm_compute. reflexivity. Qed.

(** X19, no particle: binary64 divides 0.0 by 0.0.  With [num] 0 and
    [malloc] succeeding, [main] runs to its end and returns 0, and every
    centre of mass it prints is NaN on every axis. *)
Theorem empty_system_reports_nan (timesteps : nat) (e : env) :
  malloc_ok e = true ->
  @main_body float _ 0 timesteps e =
    (0%Z,
     [PrintInitializing 0; PrintMalloced; PrintInitComplete; PrintCom0 nan3;
      PrintIntegrate timesteps]
     ++ map (fun k => PrintStep (S k) nan3) (seq 0 timesteps)
     ++ [PrintElapsed 0 timesteps; PrintCom nan3]).
Proof.
  intros Hok. rewrite main_body_shape, Hok. cbv zeta.
  rewrite !centre_of_empty.
  rewrite (map_ext (report 0 _ _) (fun k => PrintStep (S k) nan3)); [reflexivity|].
  intros k. unfold report. rewrite centre_of_empty. reflexivity.
Qed.

Lemma empty_system_reports_nan_witness :
  malloc_ok env_zero = true /\
  @main_body float _ 0 2 env_zero =
    (0%Z,
     [PrintInitializing 0; PrintMalloced; PrintInitComplete; PrintCom0 nan3;
      PrintIntegrate 2]
     ++ map (fun k => PrintStep (S k) nan3) (seq 0 2)
     ++ [PrintElapsed 0 2; PrintCom nan3]).
Proof.
  assert (Hok : malloc_ok env_zero = true) by reflexivity.
  split; [exact Hok|]. exact (empty_system_reports_nan 2 env_zero Hok).
Defined.
End Binary64.

(** ** The claims of the specification *)

Import Exact.
Local Open Scope R_scope.

(** C1: for every particle [i] of a well-formed memory, one time step sets
    the velocity of [i] to its old velocity plus the sum over [j <> i] of
    [(F / mass_i) * (d / d)] taken from the snapshot, and its position to
    its old position plus that new velocity; when the forces on [i] are
    evaluated the live position of [i] is still its snapshot, so the
    displacement is [old_pos j - old_pos i]. *)
Theorem timestep_refines_spec (num : nat) (m : mem R) (i : nat) :
  wf num m -> (i < num)%nat ->
  velocity i (timestep num m) = Spec.new_velocity GRAVCONST num i m /\
  position i (timestep num m) = Spec.new_position GRAVCONST num i m /\
  position i (at_force_evaluation num i m) = old_position i (at_force_evaluation num i m) /\
  forall j, pair_delta i j (at_force_evaluation num i m) =
            Spec.vsub (position j m) (position i m).
Proof.
  intros Hwf Hi.
  destruct (timestep_particle num m i Hwf Hi) as [Hv Hp].
  pose proof (at_force_evaluation_reads num i m Hwf (Nat.lt_le_incl _ _ Hi)) as Hreads.
  split; [rewrite Hv; apply stepped_velocity_spec|].
  split; [rewrite Hp; apply stepped_position_spec|].
  split.
  - unfold position, old_position.
    rewrite (reads_agree_frozen i i _ _ a_old_x Hreads),
      (reads_agree_frozen i i _ _ a_old_y Hreads),
      (reads_agree_frozen i i _ _ a_old_z Hreads) by reflexivity.
    destruct Hreads as [_ Hrow]. rewrite !Hrow. reflexivity.
  - intros j. rewrite (pair_delta_agree i j _ _ Hreads). reflexivity.
Qed.


Lemma timestep_refines_spec_witness :
  wf 2 two_bodies /\ (0 < 2)%nat /\
  velocity 0 (timestep 2 two_bodies) = Spec.new_velocity GRAVCONST 2 0 two_bodies /\
  position 0 (timestep 2 two_bodies) = Spec.new_position GRAVCONST 2 0 two_bodies /\
  position 0 (at_force_evaluation 2 0 two_bodies)
    = old_position 0 (at_force_evaluation 2 0 two_bodies) /\
  forall j, pair_delta 0 j (at_force_evaluation 2 0 two_bodies) =
            Spec.vsub (position j two_bodies) (position 0 two_bodies).
Proof.
  assert (Hwf : wf 2 two_bodies) by (intros a; destruct a; reflexivity).
  assert (Hi : (0 < 2)%nat) by lia.
  split; [exact Hwf|]. split; [exact Hi|].
  exact (timestep_refines_spec 2 two_bodies 0 Hwf Hi).
Defined.

(** C2, as stated, fails: a single particle with a velocity moves.  The
    particle of [lone_particle] is at the origin before the step and at
    [(1, 0, 0)] after it. *)
Lemma single_particle_moves :
  wf 1 lone_particle /\
  position 0 lone_particle = (0, 0, 0) /\
  position 0 (timestep 1 lone_particle) = (1, 0, 0) /\
  position 0 (timestep 1 lone_particle) <> position 0 lone_particle.
Proof.
  assert (Hwf : wf 1 lone_particle) by (intros a; destruct a; reflexivity).
  assert (Hp : position 0 (timestep 1 lone_particle) = (1, 0, 0)).
  { destruct (timestep_alone lone_particle Hwf) as [_ Hp]. rewrite Hp.
    unfold position, velocity, ld, rd. simpl. f_equal; [f_equal|]; lra. }
  split; [exact Hwf|]. split; [reflexivity|]. split; [exact Hp|].
  rewrite Hp. unfold position, ld, rd. simpl. intros Heq.
  injection Heq; intros; lra.
Qed.

(** C2, amended: with a single particle every time step leaves the velocity
    as it is and adds it to the position, so after [t] steps the particle
    has its first velocity and has moved by [t] times that velocity. *)
Theorem single_particle_drifts (m : mem R) (t : nat) :
  wf 1 m ->
  velocity 0 (timesteps_from 1 t m) = velocity 0 m /\
  position 0 (timesteps_from 1 t m) =
    Spec.vadd (position 0 m) (Spec.vscale (INR t) (velocity 0 m)).
Proof.
  intros Hwf. induction t as [|t IH]; [|destruct IH as [IHv IHp]].
  - split; [reflexivity|].
    change (timesteps_from 1 0 m) with m.
    destruct (position 0 m) as [[p0 p1] p2], (velocity 0 m) as [[v0 v1] v2].
    simpl. f_equal; [f_equal|]; ring.
  - rewrite timesteps_from_S.
    destruct (timestep_alone _ (wf_timesteps_from 1 t m Hwf)) as [Hv Hp].
    rewrite Hv, Hp, IHv, IHp, S_INR. split; [reflexivity|].
    destruct (position 0 m) as [[p0 p1] p2], (velocity 0 m) as [[v0 v1] v2].
    simpl. f_equal; [f_equal|]; ring.
Qed.

Lemma single_particle_drifts_witness :
  wf 1 lone_particle /\
  velocity 0 (timesteps_from 1 3 lone_particle) = velocity 0 lone_particle /\
  position 0 (timesteps_from 1 3 lone_particle) =
    Spec.vadd (position 0 lone_particle) (Spec.vscale (INR 3) (velocity 0 lone_particle)).
Proof.
  assert (Hwf : wf 1 lone_particle) by (intros a; destruct a; reflexivity).
  split; [exact Hwf|].
  exact (single_particle_drifts lone_particle 3 Hwf).
Defined.



(** C4, as stated, fails: when [rand()] returns [RAND_MAX] the values that
    [init] stores are the upper ends of the intervals, which the claim
    excludes. *)
Lemma init_attains_upper_bounds :
  env_ok env_top /\
  position 0 (initial_memory env_top 1) = (50, 50, 100) /\
  velocity 0 (initial_memory env_top 1) = (5, 5, 5) /\
  ld a_mass 0 (initial_memory env_top 1) = 10.1 /\
  ~ ld a_x 0 (initial_memory env_top 1) < 50.
Proof.
  pose proof (init_body_stores (D := R) env_top 1 0 (malloc_all 1) 0
               (wf_malloc_all 1) (le_n 1)) as H.
  rewrite <- initial_memory_1 in H.
  set (m1 := initial_memory env_top 1) in *. clearbody m1.
  cbn [rand_seq env_top] in H. rewrite !sample_top in H.
  destruct Q2R_literals as (L50 & L100 & L5 & L2 & L0).
  cbn [dlit dof_int dmul dneg R_arith] in H.
  rewrite L50, L100, L5, L2, L0 in H.
  destruct H as (Hx & Hy & Hz & Hvx & Hvy & Hvz & Hm).
  split; [split; [simpl; lia | intros k; simpl; lia]|].
  unfold position, velocity. rewrite Hx, Hy, Hz, Hvx, Hvy, Hvz, Hm.
  split; [f_equal; [f_equal|]; lra|].
  split; [f_equal; [f_equal|]; lra|].
  split; lra.
Qed.

(** C4, amended: for a [rand()] within [0, RAND_MAX], what [init] stores
    for every particle lies in the closed intervals: the mass in
    [0.1, 10.1], x and y in [-50, 50], z in [0, 100] and every velocity
    component in [-5, 5]. *)
Theorem init_within_closed_ranges (e : env) (num : nat) (m : mem R) (k i : nat) :
  env_ok e -> wf num m -> (i < num)%nat ->
  in_ranges i (snd (fst (init e num m k))).
Proof.
  intros He Hwf Hi.
  apply (init_loop_inv in_ranges e num m k Hwf); [| |exact Hi].
  - intros i' m' k' Hwf' Hi'. apply (in_ranges_this e num); assumption.
  - intros i' j m' k' Hne. apply in_ranges_other, Hne.
Qed.

Lemma init_within_closed_ranges_witness :
  env_ok env_top /\ wf 1 (@malloc_all R _ 1) /\ (0 < 1)%nat /\
  in_ranges 0 (snd (fst (init env_top 1 (malloc_all 1) 0))).
Proof.
  assert (He : env_ok env_top) by (split; [simpl; lia | intros k; simpl; lia]).
  assert (Hwf : wf 1 (@malloc_all R _ 1)) by (intros a; reflexivity).
  assert (Hi : (0 < 1)%nat) by lia.
  split; [exact He|]. split; [exact Hwf|]. split; [exact Hi|].
  exact (init_within_closed_ranges env_top 1 (malloc_all 1) 0 0 He Hwf Hi).
Defined.

(** C5: with [totalMass > 0] (and whatever [com] holds on entry),
    [calc_centre_mass] returns on each axis the sum of [mass_i * pos_i]
    over [i < N] divided by [totalMass], and that is what one pass of the
    body of its loop over [axis] returns. *)
Theorem calc_centre_mass_weighted_average (com : vec3 R) (x y z mass : list R)
    (totalMass : R) (N : nat) :
  0 < totalMass ->
  calc_centre_mass com x y z mass totalMass N =
    (Spec.weighted_sum mass x N / totalMass,
     Spec.weighted_sum mass y N / totalMass,
     Spec.weighted_sum mass z N / totalMass) /\
  calc_centre_mass com x y z mass totalMass N = com_pass x y z mass totalMass N com.
Proof.
  intros _. split.
  - rewrite (calc_centre_mass_single_pass com com). apply com_pass_weighted.
  - apply calc_centre_mass_single_pass.
Qed.

Lemma calc_centre_mass_weighted_average_witness :
  0 < 4 /\
  calc_centre_mass (7, 7, 7) [0; 4] [0; 0] [1; 1] [1; 3] 4 2 =
    (Spec.weighted_sum [1; 3] [0; 4] 2 / 4,
     Spec.weighted_sum [1; 3] [0; 0] 2 / 4,
     Spec.weighted_sum [1; 3] [1; 1] 2 / 4) /\
  calc_centre_mass (7, 7, 7) [0; 4] [0; 0] [1; 1] [1; 3] 4 2 =
    com_pass [0; 4] [0; 0] [1; 1] [1; 3] 4 2 (7, 7, 7).
Proof.
  assert (Hpos : 0 < 4) by lra.
  split; [exact Hpos|].
  exact (calc_centre_mass_weighted_average (7, 7, 7) [0; 4] [0; 0] [1; 1] [1; 3] 4 2 Hpos).
Defined.

(** C6: in exact arithmetic the acceleration that lines 120-124 compute for
    a pair is the contribution [(F / mass_i) * (d / d)], in which a positive
    [mass_i] cancels; hence the velocity and the position that a time step
    gives particle [i] are the same for every positive mass of [i]. *)
Theorem mass_i_cancels (num : nat) (m : mem R) (i j : nat) (mass_i' : R) :
  wf num m -> (i < num)%nat -> 0 < ld a_mass i m -> 0 < mass_i' ->
  pair_accel i j m =
    Spec.contribution GRAVCONST (ld a_mass i m) (ld a_old_mass j m)
      (position i m) (old_position j m) /\
  pair_accel i j m =
    Spec.contribution_cancelled GRAVCONST (ld a_old_mass j m)
      (position i m) (old_position j m) /\
  velocity i (timestep num (st a_mass i mass_i' m)) = velocity i (timestep num m) /\
  position i (timestep num (st a_mass i mass_i' m)) = position i (timestep num m).
Proof.
  intros Hwf Hi Hm Hm'.
  assert (Hwf' : wf num (st a_mass i mass_i' m)) by apply wf_st, Hwf.
  assert (Hmi : ld a_mass i (st a_mass i mass_i' m) = mass_i')
    by (apply ld_st_eq; rewrite Hwf; exact Hi).
  assert (Hv : Spec.new_velocity GRAVCONST num i (st a_mass i mass_i' m)
               = Spec.new_velocity GRAVCONST num i m).
  { unfold Spec.new_velocity.
    rewrite !net_acceleration_cancelled by (rewrite ?Hmi; lra).
    unfold velocity, position. rewrite !ld_st_arr by discriminate.
    f_equal. f_equal. apply map_others_ext. intros k Hk.
    rewrite (ld_st_idx a_mass a_mass i k) by exact Hk.
    rewrite !ld_st_arr by discriminate. reflexivity. }
  split; [apply pair_accel_contribution|].
  split; [rewrite pair_accel_contribution; apply contribution_cancels; lra|].
  destruct (timestep_particle num m i Hwf Hi) as [-> ->].
  destruct (timestep_particle num _ i Hwf' Hi) as [-> ->].
  rewrite !stepped_position_spec, !stepped_velocity_spec.
  unfold Spec.new_position. rewrite Hv. unfold position.
  rewrite !ld_st_arr by discriminate. split; reflexivity.
Qed.

Lemma mass_i_cancels_witness :
  wf 2 two_bodies /\ (0 < 2)%nat /\ 0 < ld a_mass 0 two_bodies /\ 0 < 7 /\
  pair_accel 0 1 two_bodies =
    Spec.contribution GRAVCONST (ld a_mass 0 two_bodies) (ld a_old_mass 1 two_bodies)
      (position 0 two_bodies) (old_position 1 two_bodies) /\
  pair_accel 0 1 two_bodies =
    Spec.contribution_cancelled GRAVCONST (ld a_old_mass 1 two_bodies)
      (position 0 two_bodies) (old_position 1 two_bodies) /\
  velocity 0 (timestep 2 (st a_mass 0 7 two_bodies)) = velocity 0 (timestep 2 two_bodies) /\
  position 0 (timestep 2 (st a_mass 0 7 two_bodies)) = position 0 (timestep 2 two_bodies).
Proof.
  assert (Hwf : wf 2 two_bodies) by (intros a; destruct a; reflexivity).
  assert (Hi : (0 < 2)%nat) by lia.
  assert (Hm : 0 < ld a_mass 0 two_bodies) by (unfold ld, rd; simpl; lra).
  assert (Hm' : 0 < 7) by lra.
  split; [exact Hwf|]. split; [exact Hi|]. split; [exact Hm|]. split; [exact Hm'|].
  exact (mass_i_cancels 2 two_bodies 0 1 7 Hwf Hi Hm Hm').
Defined.

(** C7: the step integrator never writes a mass: after one time step, and
    so after any number of time steps, the array [mass] is the array the
    first step started from, whatever the memory and the arithmetic. *)
Theorem timestep_preserves_mass {D : Type} {A : Arith D} (num t : nat) (m : mem D) :
  timestep num m a_mass = m a_mass /\
  timesteps_from num t m a_mass = m a_mass /\
  forall i, ld a_mass i (timesteps_from num t m) = ld a_mass i m.
Proof.
  split; [apply timestep_mass|]. split; [apply timesteps_from_mass|].
  intros i. unfold ld. rewrite timesteps_from_mass. reflexivity.
Qed.

(** C8: [init] returns 0 whatever it is given, so [main] never prints the
    message of its [rc != 0] branch and exits with a nonzero status only
    when [malloc] fails. *)
Theorem init_never_fails {D : Type} {A : Arith D} (e : env) (num timesteps : nat)
    (m : mem D) (k : nat) (argc : Z) (argv : list string) :
  fst (fst (init e num m k)) = 0%Z /\
  existsb is_init_error (snd (@main_body D A num timesteps e)) = false /\
  existsb is_init_error (snd (@main D A argc argv e)) = false /\
  fst (@main D A argc argv e) = (if malloc_ok e then 0 else -99)%Z.
Proof.
  rewrite main_unfold.
  split; [apply init_rc|].
  split; [apply existsb_init_error_main_body|].
  split; [apply existsb_init_error_main_body|].
  apply status_main_body.
Qed.

(** C9: in every time step, when the forces on particle [i] are evaluated
    the snapshot [old_mass] holds the masses themselves, and in exact
    arithmetic the force [F] computed for the pair [(i, j)] is the force
    computed for the pair [(j, i)]. *)
Theorem force_symmetric (num t : nat) (m : mem R) (i j : nat) :
  wf num m -> (i < num)%nat -> (j < num)%nat ->
  ld a_old_mass j (at_force_evaluation num i (timesteps_from num t m))
    = ld a_mass j (at_force_evaluation num i (timesteps_from num t m)) /\
  pair_F i j (at_force_evaluation num i (timesteps_from num t m))
    = pair_F j i (at_force_evaluation num j (timesteps_from num t m)).
Proof.
  intros Hwf Hi Hj.
  pose proof (wf_timesteps_from num t m Hwf) as Hwft.
  set (mt := timesteps_from num t m) in *.
  pose proof (at_force_evaluation_reads num i mt Hwft (Nat.lt_le_incl _ _ Hi)) as Hri.
  pose proof (at_force_evaluation_reads num j mt Hwft (Nat.lt_le_incl _ _ Hj)) as Hrj.
  split.
  - rewrite (reads_agree_frozen i j _ _ a_old_mass Hri),
      (reads_agree_frozen i j _ _ a_mass Hri) by reflexivity.
    reflexivity.
  - rewrite (pair_F_agree i j _ _ Hri), (pair_F_agree j i _ _ Hrj).
    apply pair_F_snap_symmetric.
Qed.

Lemma force_symmetric_witness :
  wf 2 two_bodies /\ (0 < 2)%nat /\ (1 < 2)%nat /\
  ld a_old_mass 1 (at_force_evaluation 2 0 (timesteps_from 2 1 two_bodies))
    = ld a_mass 1 (at_force_evaluation 2 0 (timesteps_from 2 1 two_bodies)) /\
  pair_F 0 1 (at_force_evaluation 2 0 (timesteps_from 2 1 two_bodies))
    = pair_F 1 0 (at_force_evaluation 2 1 (timesteps_from 2 1 two_bodies)).
Proof.
  assert (Hwf : wf 2 two_bodies) by (intros a; destruct a; reflexivity).
  assert (Hi : (0 < 2)%nat) by lia.
  assert (Hj : (1 < 2)%nat) by lia.
  split; [exact Hwf|]. split; [exact Hi|]. split; [exact Hj|].
  exact (force_symmetric 2 1 two_bodies 0 1 Hwf Hi Hj).
Defined.

(** C10: [main] divides every centre of mass by the [totalMass] of line 70;
    the driver that sums the current masses before every report returns
    and prints the same, because the sum of the masses is the same after
    every time step. *)
Theorem total_mass_computed_once {D : Type} {A : Arith D} (num timesteps : nat)
    (e : env) (argc : Z) (argv : list string) :
  @main_body_recomputing D A num timesteps e = main_body num timesteps e /\
  @main_recomputing D A argc argv e = main argc argv e /\
  forall (m : mem D) (t : nat), total_mass num (timesteps_from num t m) = total_mass num m.
Proof.
  split; [apply main_body_recomputing_eq|].
  split; [exact (main_body_recomputing_eq NUM TS e)|].
  intros m t. apply total_mass_same, timesteps_from_mass.
Qed.

(** ** Further properties of the program *)

(** X1, the snapshot: after LOOP1 of a well-formed memory the arrays [old_x],
    [old_y], [old_z] and [old_mass] hold what [x], [y], [z] and [mass] hold,
    and these and the velocities are as they were. *)
Theorem snapshot_copies_live_arrays {D : Type} {A : Arith D} (num : nat) (m : mem D) :
  wf num m ->
  LOOP1 num m a_old_x = m a_x /\ LOOP1 num m a_old_y = m a_y /\
  LOOP1 num m a_old_z = m a_z /\ LOOP1 num m a_old_mass = m a_mass /\
  forall a, src a = a -> LOOP1 num m a = m a.
Proof.
  intros Hwf.
  split; [apply (LOOP1_snapshot num m a_old_x Hwf)|].
  split; [apply (LOOP1_snapshot num m a_old_y Hwf)|].
  split; [apply (LOOP1_snapshot num m a_old_z Hwf)|].
  split; [apply (LOOP1_snapshot num m a_old_mass Hwf)|].
  intros a Ha. apply LOOP1_keeps, Ha.
Qed.

Lemma snapshot_copies_live_arrays_witness :
  wf 2 two_bodies /\
  LOOP1 2 two_bodies a_old_x = two_bodies a_x /\
  LOOP1 2 two_bodies a_old_y = two_bodies a_y /\
  LOOP1 2 two_bodies a_old_z = two_bodies a_z /\
  LOOP1 2 two_bodies a_old_mass = two_bodies a_mass /\
  forall a, src a = a -> LOOP1 2 two_bodies a = two_bodies a.
Proof.
  assert (Hwf : wf 2 two_bodies) by (intros a; destruct a; reflexivity).
  split; [exact Hwf|]. apply (snapshot_copies_live_arrays 2 two_bodies Hwf).
Defined.

(** X2, the sampling order of [init]: particle [i] is given the samples of the
    seven values that [rand()] returns from its call [k + 7 * i] on, in the
    order x, y, z, vx, vy, vz, mass, whatever the arrays held before; [init]
    calls [rand()] seven times per particle. *)
Theorem init_draws_in_order {D : Type} {A : Arith D} (e : env) (num : nat) (m : mem D)
    (k i : nat) :
  wf num m -> (i < num)%nat ->
  stored_in_order e k i (snd (fst (init e num m k))) /\
  snd (init e num m k) = (k + 7 * num)%nat.
Proof. apply init_sampling_order. Qed.

Lemma init_draws_in_order_witness :
  wf 2 (@malloc_all float _ 2) /\ (1 < 2)%nat /\
  stored_in_order env_top 0 1 (snd (fst (init env_top 2 (@malloc_all float _ 2) 0))) /\
  snd (init env_top 2 (@malloc_all float _ 2) 0) = (0 + 7 * 2)%nat.
Proof.
  assert (Hwf : wf 2 (@malloc_all float _ 2)) by (intros a; reflexivity).
  assert (Hi : (1 < 2)%nat) by lia.
  split; [exact Hwf|]. split; [exact Hi|].
  exact (init_draws_in_order env_top 2 (malloc_all 2) 0 1 Hwf Hi).
Defined.

(** X3, the softening floor: in exact arithmetic the separation used in the
    force law is at least 0.01 and at least the distance itself, so the
    divisor [d * d] of line 120 is positive. *)
Theorem softening_floor (i j : nat) (m : mem R) :
  0.01 <= pair_d i j m /\
  Spec.vnorm (Spec.vsub (old_position j m) (position i m)) <= pair_d i j m /\
  0 < pair_d i j m * pair_d i j m.
Proof.
  rewrite pair_d_softened. unfold Spec.softened.
  set (t := Spec.vnorm _).
  pose proof (Rmax_r t 0.01). pose proof (Rmax_l t 0.01).
  split; [assumption|]. split; [assumption|]. nra.
Qed.

(** X4, two bodies with no total momentum (two bodies at rest, say): in
    exact arithmetic the momentum stays zero and the centre of mass that
    [calc_centre_mass] computes stays where it is, step after step. *)
Theorem two_body_centre_of_mass_constant (m : mem R) (t : nat) (com : vec3 R)
    (totalMass : R) :
  wf 2 m -> 0 < ld a_mass 0 m -> 0 < ld a_mass 1 m ->
  momentum2 m = (0, 0, 0) ->
  momentum2 (timesteps_from 2 t m) = (0, 0, 0) /\
  centre_of (timesteps_from 2 t m) com totalMass 2 = centre_of m com totalMass 2.
Proof.
  intros Hwf Hm0 Hm1 Hzero.
  assert (H : momentum2 (timesteps_from 2 t m) = (0, 0, 0) /\
              weighted_position2 (timesteps_from 2 t m) = weighted_position2 m).
  { induction t as [|t [IHm IHp]]; [split; [exact Hzero | reflexivity]|].
    rewrite timesteps_from_S.
    destruct (timestep_momentum2 (timesteps_from 2 t m)) as [Hm Hp].
    - apply wf_timesteps_from, Hwf.
    - unfold ld. rewrite timesteps_from_mass. fold (ld a_mass 0 m). lra.
    - unfold ld. rewrite timesteps_from_mass. fold (ld a_mass 1 m). lra.
    - rewrite Hm, Hp, IHm, IHp, vadd_0_r. split; reflexivity. }
  destruct H as [Hm Hp]. split; [exact Hm|].
  rewrite !centre_of_weighted_position2, Hp. reflexivity.
Qed.

Lemma two_body_centre_of_mass_constant_witness :
  wf 2 two_bodies /\ 0 < ld a_mass 0 two_bodies /\ 0 < ld a_mass 1 two_bodies /\
  momentum2 two_bodies = (0, 0, 0) /\
  momentum2 (timesteps_from 2 10 two_bodies) = (0, 0, 0) /\
  centre_of (timesteps_from 2 10 two_bodies) (0, 0, 0) 5 2 = centre_of two_bodies (0, 0, 0) 5 2.
Proof.
  assert (Hwf : wf 2 two_bodies) by (intros a; destruct a; reflexivity).
  assert (Hz : momentum2 two_bodies = (0, 0, 0)).
  { unfold momentum2, velocity, ld, rd. simpl. f_equal; [f_equal|]; lra. }
  assert (Hm0 : 0 < ld a_mass 0 two_bodies) by (unfold ld, rd; simpl; lra).
  assert (Hm1 : 0 < ld a_mass 1 two_bodies) by (unfold ld, rd; simpl; lra).
  split; [exact Hwf|]. split; [exact Hm0|]. split; [exact Hm1|]. split; [exact Hz|].
  exact (two_body_centre_of_mass_constant two_bodies 10 (0, 0, 0) 5 Hwf Hm0 Hm1 Hz).
Defined.

Import Sums Bounds Many Turning Frames.

(** X6, the schedule of LOOP2: its iterations may be taken in any order.
    For every schedule that runs each particle below [num] once, the
    arrays after the scheduled loop are the arrays after the loop in
    index order, so that a time step does not depend on how the
    [omp parallel for] of line 105 orders whole iterations. *)
Theorem LOOP2_any_order {D : Type} {A : Arith D} (num : nat) (sched : list nat)
    (m : mem D) (a : arr) :
  wf num m -> sched ≡ₚ seq 0 num ->
  LOOP2_scheduled num sched m a = LOOP2 num m a /\
  LOOP2_scheduled num sched (LOOP1 num m) a = timestep num m a.
Proof.
  intros Hwf Hperm.
  assert (Hgen : forall m0, wf num m0 -> LOOP2_scheduled num sched m0 a = LOOP2 num m0 a).
  { intros m0 Hwf0. rewrite LOOP2_is_scheduled.
    assert (Hmem : forall l, l ≡ₚ seq 0 num -> forall i, i ∈ l <-> (i < num)%nat).
    { intros l Hl i. rewrite Hl, list_elem_of_In, in_seq. lia. }
    assert (Hrun : forall l, l ≡ₚ seq 0 num ->
              LOOP2_sched_inv num m0 l (LOOP2_scheduled num l m0)).
    { intros l Hl. apply (LOOP2_sched_run num m0 l [] m0).
      - apply LOOP2_sched_inv_start, Hwf0.
      - simpl. rewrite Hl. apply NoDup_ListNoDup, seq_NoDup.
      - intros i Hi. apply (Hmem l Hl), Hi. }
    apply (LOOP2_sched_inv_unique num m0 sched (seq 0 num)).
    - intros i Hi. apply (Hmem sched Hperm), Hi.
    - intros i Hi. apply (Hmem (seq 0 num)); [reflexivity | exact Hi].
    - apply Hrun, Hperm.
    - apply Hrun. reflexivity. }
  split; [apply Hgen, Hwf|]. apply Hgen, wf_LOOP1, Hwf.
Qed.

Lemma LOOP2_any_order_witness :
  wf 2 two_bodies /\ [1; 0]%nat ≡ₚ seq 0 2 /\
  LOOP2_scheduled 2 [1; 0]%nat two_bodies a_x = LOOP2 2 two_bodies a_x /\
  LOOP2_scheduled 2 [1; 0]%nat (LOOP1 2 two_bodies) a_x = timestep 2 two_bodies a_x.
Proof.
  assert (Hwf : wf 2 two_bodies) by (intros a; destruct a; reflexivity).
  assert (Hp : [1; 0]%nat ≡ₚ seq 0 2) by apply Permutation_swap.
  split; [exact Hwf|]. split; [exact Hp|].
  exact (LOOP2_any_order 2 [1; 0]%nat two_bodies a_x Hwf Hp).
Defined.

(** X7, stale snapshots: a time step makes no use of what the arrays
    [old_x], [old_y], [old_z] and [old_mass] held before it.  Two
    well-formed memories with the same masses, positions and velocities
    are taken to the same eleven arrays. *)
Theorem timestep_ignores_stale_snapshot {D : Type} {A : Arith D} (num : nat)
    (m m' : mem D) (a : arr) :
  wf num m -> wf num m' -> same_particles m m' ->
  timestep num m a = timestep num m' a.
Proof. intros Hwf Hwf' H. apply timestep_same_particles; assumption. Qed.

Lemma timestep_ignores_stale_snapshot_witness :
  wf 2 two_bodies /\ wf 2 two_bodies_stale /\ same_particles two_bodies two_bodies_stale /\
  timestep 2 two_bodies a_old_x = timestep 2 two_bodies_stale a_old_x.
Proof.
  assert (Hwf : wf 2 two_bodies) by (intros a; destruct a; reflexivity).
  assert (Hwf' : wf 2 two_bodies_stale) by (intros a; destruct a; reflexivity).
  assert (Hs : same_particles two_bodies two_bodies_stale)
    by (intros a Ha; destruct a; try discriminate Ha; reflexivity).
  split; [exact Hwf|]. split; [exact Hwf'|]. split; [exact Hs|].
  exact (timestep_ignores_stale_snapshot 2 two_bodies two_bodies_stale a_old_x Hwf Hwf' Hs).
Defined.

(** X8, uninitialized storage: [main] reads no storage before it has
    written it.  Whatever the arrays of lines 39-49 and the array [com] of
    line 26 hold when [main] gets them, it returns and prints what it does
    from zeroed storage. *)
Theorem main_reads_nothing_uninitialized {D : Type} {A : Arith D} (heap : mem D)
    (com0 : vec3 D) (num timesteps : nat) (e : env) :
  wf num heap ->
  main_body_on heap com0 num timesteps e = main_body num timesteps e.
Proof.
  intros Hwf. rewrite main_body_on_shape, main_body_shape.
  destruct (malloc_ok e); [|reflexivity]. cbv zeta. unfold initial_memory.
  pose proof (init_same_particles e num heap (malloc_all num) 0 Hwf (wf_malloc_all num))
    as Hsame.
  pose proof (init_wf e num heap 0 Hwf) as Hwf1.
  pose proof (init_wf e num (malloc_all num) 0 (wf_malloc_all num)) as Hwf2.
  set (m1 := snd (fst (init e num heap 0))) in *.
  set (m2 := snd (fst (init e num (malloc_all num) 0))) in *.
  rewrite (total_mass_same num m1 m2) by (apply Hsame; reflexivity).
  set (tm := total_mass num m2).
  rewrite (centre_of_same_particles m1 m2 zero3 zero3 tm num Hsame).
  rewrite (centre_of_same_particles _ _ zero3 zero3 tm num
             (timesteps_from_same_particles num timesteps m1 m2 Hwf1 Hwf2 Hsame)).
  f_equal. f_equal. f_equal. apply map_ext. intros k. unfold report. f_equal.
  apply centre_of_same_particles, timesteps_from_same_particles; assumption.
Qed.

Lemma main_reads_nothing_uninitialized_witness :
  wf 2 two_bodies_stale /\
  main_body_on two_bodies_stale (7, 7, 7) 2 3 env_top = main_body 2 3 env_top.
Proof.
  assert (Hwf : wf 2 two_bodies_stale) by (intros a; destruct a; reflexivity).
  split; [exact Hwf|].
  exact (main_reads_nothing_uninitialized two_bodies_stale (7, 7, 7) 2 3 env_top Hwf).
Defined.

(** X9, the lines of a run: when [malloc] succeeds [main] calls [printf]
    seven times and once per time step, and writes five lines of output
    and one per time step, the messages of lines 36, 57 and 67 sharing the
    first line; the centre of mass of its last line is that of the last
    time step's line, or that of the t=0 line when there is no time
    step. *)
Theorem final_report_repeats_last {D : Type} {A : Arith D} (num timesteps : nat) (e : env) :
  malloc_ok e = true ->
  length (snd (@main_body D A num timesteps e)) = (7 + timesteps)%nat /\
  lines_printed (snd (@main_body D A num timesteps e)) = (5 + timesteps)%nat /\
  lines_printed (firstn 3 (snd (@main_body D A num timesteps e))) = 1%nat /\
  (exists c : vec3 D,
     snd (@main_body D A num 0 e) =
       [PrintInitializing num; PrintMalloced; PrintInitComplete; PrintCom0 c;
        PrintIntegrate 0; PrintElapsed num 0; PrintCom c]) /\
  (exists (pre : list (event D)) (c : vec3 D),
     length pre = (5 + timesteps)%nat /\
     snd (@main_body D A num (S timesteps) e) =
       pre ++ [PrintStep (S timesteps) c; PrintElapsed num (S timesteps); PrintCom c]).
Proof.
  intros Hok. rewrite !main_body_shape, Hok. cbv zeta. cbn [snd].
  split; [|split; [|split; [|split]]].
  - rewrite !length_app, length_map, length_seq. simpl. lia.
  - rewrite !lines_printed_app, lines_printed_reports, length_seq.
    unfold lines_printed. simpl. lia.
  - reflexivity.
  - eexists. reflexivity.
  - set (m := initial_memory e num). set (tm := total_mass num m).
    exists ([PrintInitializing num; PrintMalloced; PrintInitComplete;
             PrintCom0 (centre_of m zero3 tm num); PrintIntegrate (S timesteps)]
            ++ map (report num tm m) (seq 0 timesteps)).
    exists (centre_of (timesteps_from num (S timesteps) m) zero3 tm num).
    split; [rewrite length_app, length_map, length_seq; simpl; lia|].
    rewrite seq_S, map_app, <- !app_assoc. reflexivity.
Qed.

Lemma final_report_repeats_last_witness :
  malloc_ok env_zero = true /\
  length (snd (@main_body float _ 2 3 env_zero)) = (7 + 3)%nat /\
  lines_printed (snd (@main_body float _ 2 3 env_zero)) = (5 + 3)%nat /\
  lines_printed (firstn 3 (snd (@main_body float _ 2 3 env_zero))) = 1%nat /\
  (exists c : vec3 float,
     snd (@main_body float _ 2 0 env_zero) =
       [PrintInitializing 2; PrintMalloced; PrintInitComplete; PrintCom0 c;
        PrintIntegrate 0; PrintElapsed 2 0; PrintCom c]) /\
  (exists (pre : list (event float)) (c : vec3 float),
     length pre = (5 + 3)%nat /\
     snd (@main_body float _ 2 (S 3) env_zero) =
       pre ++ [PrintStep (S 3) c; PrintElapsed 2 (S 3); PrintCom c]).
Proof.
  assert (Hok : malloc_ok env_zero = true) by reflexivity.
  split; [exact Hok|].
  exact (final_report_repeats_last 2 3 env_zero Hok).
Defined.

(** X10, [output_particles]: it prints the heading and then one line for
    each particle below [n], in index order, [n + 1] lines in all and the
    heading alone when [n] is 0; the line of particle [i] carries [i] and
    the position, velocity and mass that the arrays hold at [i].  Called
    after any number of time steps it prints the masses it prints before
    them. *)
Theorem output_particles_lists_particles {D : Type} {A : Arith D} (m : mem D)
    (num n t : nat) :
  dump m n =
    PrintHeading ::
    map (fun i => PrintParticle i (ld a_x i m) (ld a_y i m) (ld a_z i m)
                                  (ld a_vx i m) (ld a_vy i m) (ld a_vz i m) (ld a_mass i m))
        (seq 0 n) /\
  length (dump m n) = S n /\
  dump m 0 = [PrintHeading] /\
  omap printed_mass (dump (timesteps_from num t m) n) = omap printed_mass (dump m n).
Proof.
  unfold dump. rewrite !output_particles_lines.
  split; [reflexivity|].
  split; [cbn [length]; rewrite length_map, length_seq; reflexivity|].
  split; [reflexivity|].
  rewrite timesteps_from_mass.
  change (omap printed_mass (PrintHeading :: ?l)) with (omap printed_mass l).
  rewrite !(omap_printed_mass _ (rd (m a_mass))) by reflexivity. reflexivity.
Qed.

(** X11, the order of the reduction: in exact arithmetic the reduction of
    lines 71-74 gives the same [totalMass] in whatever order it adds the
    masses. *)
Theorem total_mass_any_order (num : nat) (sched : list nat) (m : mem R) :
  sched ≡ₚ seq 0 num ->
  total_mass_scheduled sched m = total_mass num m.
Proof.
  intros Hperm.
  change (total_mass num m) with (total_mass_scheduled (seq 0 num) m).
  unfold total_mass_scheduled. to_R.
  rewrite !(fold_left_sum (fun i => ld a_mass i m)).
  rewrite (sum_map_perm _ _ _ Hperm). reflexivity.
Qed.

Lemma total_mass_any_order_witness :
  [1; 0]%nat ≡ₚ seq 0 2 /\
  total_mass_scheduled [1; 0]%nat two_bodies = total_mass 2 two_bodies.
Proof.
  assert (Hp : [1; 0]%nat ≡ₚ seq 0 2) by apply Permutation_swap.
  split; [exact Hp|]. exact (total_mass_any_order 2 [1; 0]%nat two_bodies Hp).
Defined.

(** X12, the centre of mass is an average: for particles of positive mass
    the sum of the masses is positive, and the centre of mass that
    [calc_centre_mass] computes with that sum as [totalMass] lies in every
    box that holds the particles. *)
Theorem centre_of_mass_in_box (m : mem R) (com lo hi : vec3 R) (N : nat) :
  (0 < N)%nat ->
  (forall i, (i < N)%nat -> 0 < ld a_mass i m) ->
  (forall i, (i < N)%nat -> within lo hi (position i m)) ->
  0 < total_mass N m /\
  within lo hi (centre_of m com (total_mass N m) N).
Proof.
  intros HN Hm Hbox.
  split; [rewrite total_mass_sum; apply sum_upto_pos; assumption|].
  apply centre_of_within; assumption.
Qed.

Lemma centre_of_mass_in_box_witness :
  (0 < 2)%nat /\
  (forall i, (i < 2)%nat -> 0 < ld a_mass i two_bodies) /\
  (forall i, (i < 2)%nat -> within (0, 0, 0) (1, 0, 0) (position i two_bodies)) /\
  0 < total_mass 2 two_bodies /\
  within (0, 0, 0) (1, 0, 0) (centre_of two_bodies (7, 7, 7) (total_mass 2 two_bodies) 2).
Proof.
  assert (HN : (0 < 2)%nat) by lia.
  assert (Hm : forall i, (i < 2)%nat -> 0 < ld a_mass i two_bodies).
  { intros i Hi. destruct i as [|[|i]]; [| |lia]; unfold ld, rd; simpl; lra. }
  assert (Hb : forall i, (i < 2)%nat -> within (0, 0, 0) (1, 0, 0) (position i two_bodies)).
  { intros i Hi. destruct i as [|[|i]]; [| |lia]; unfold within, position, ld, rd; simpl; lra. }
  split; [exact HN|]. split; [exact Hm|]. split; [exact Hb|].
  exact (centre_of_mass_in_box two_bodies (7, 7, 7) (0, 0, 0) (1, 0, 0) 2 HN Hm Hb).
Defined.

(** X13, the first report: on a platform whose [rand()] stays within
    [0, RAND_MAX], and with at least one particle, the [totalMass] of
    line 70 lies between 0.1 and 10.1 times the number of particles, so
    that no centre of mass divides by zero, and the centre of mass that
    [main] prints for t=0 lies in the box [-50, 50] x [-50, 50] x [0, 100]
    of the initial positions. *)
Theorem initial_centre_of_mass_in_box (e : env) (num timesteps : nat) :
  env_ok e -> malloc_ok e = true -> (0 < num)%nat ->
  0.1 * INR num <= total_mass num (initial_memory e num) <= 10.1 * INR num /\
  exists (c : vec3 R) (rest : list (event R)),
    snd (main_body num timesteps e) =
      [PrintInitializing num; PrintMalloced; PrintInitComplete; PrintCom0 c] ++ rest /\
    within (-50, -50, 0) (50, 50, 100) c.
Proof.
  intros He Hok Hnum.
  set (m := @initial_memory R _ e num).
  assert (Hr : forall i, (i < num)%nat -> in_ranges i m)
    by (intros i Hi; apply initial_memory_in_ranges; assumption).
  split.
  - rewrite total_mass_sum.
    assert (Hc : forall c n, sum_upto (fun _ => c) n = c * INR n).
    { intros c n. induction n as [|n IH]; [unfold sum_upto; simpl; ring|].
      rewrite sum_upto_S, IH, S_INR. ring. }
    rewrite <- !Hc. split; apply sum_upto_le; intros i Hi;
      destruct (Hr i Hi) as (Hm & _); lra.
  - rewrite main_body_shape, Hok. cbv zeta. cbn [snd]. fold m.
    eexists. eexists. split; [reflexivity|].
    apply centre_of_within; [exact Hnum | |].
    + intros i Hi. destruct (Hr i Hi) as (Hm & _). lra.
    + intros i Hi. destruct (Hr i Hi) as (_ & Hx & Hy & Hz & _).
      unfold within, position. tauto.
Qed.

Lemma initial_centre_of_mass_in_box_witness :
  env_ok env_top /\ malloc_ok env_top = true /\ (0 < 3)%nat /\
  0.1 * INR 3 <= total_mass 3 (initial_memory env_top 3) <= 10.1 * INR 3 /\
  exists (c : vec3 R) (rest : list (event R)),
    snd (main_body 3 2 env_top) =
      [PrintInitializing 3; PrintMalloced; PrintInitComplete; PrintCom0 c] ++ rest /\
    within (-50, -50, 0) (50, 50, 100) c.
Proof.
  assert (He : env_ok env_top) by (split; [simpl; lia | intros k; simpl; lia]).
  assert (Hok : malloc_ok env_top = true) by reflexivity.
  assert (Hn : (0 < 3)%nat) by lia.
  split; [exact He|]. split; [exact Hok|]. split; [exact Hn|].
  exact (initial_centre_of_mass_in_box env_top 3 2 He Hok Hn).
Defined.

(** X14, close encounters: in exact arithmetic the acceleration that one
    particle of mass [old_mass_j] gives another in a time step is at most
    [10 * old_mass_j] on every axis, however close the two are, and is
    zero when they are at the same place. *)
Theorem pair_acceleration_bounded (i j : nat) (m : mem R) :
  ld a_mass i m <> 0 -> 0 <= ld a_old_mass j m ->
  components_within (10 * ld a_old_mass j m) (pair_accel i j m) /\
  (old_position j m = position i m -> pair_accel i j m = (0, 0, 0)).
Proof.
  intros Hmi Hmj. split; [apply pair_accel_within; assumption|].
  apply pair_accel_coincident.
Qed.

Lemma pair_acceleration_bounded_witness :
  ld a_mass 0 (snap two_bodies) <> 0 /\ 0 <= ld a_old_mass 1 (snap two_bodies) /\
  components_within (10 * ld a_old_mass 1 (snap two_bodies))
    (pair_accel 0 1 (snap two_bodies)) /\
  (old_position 1 (snap two_bodies) = position 0 (snap two_bodies) ->
   pair_accel 0 1 (snap two_bodies) = (0, 0, 0)).
Proof.
  assert (Hmi : ld a_mass 0 (snap two_bodies) <> 0) by (unfold ld, rd; simpl; lra).
  assert (Hmj : 0 <= ld a_old_mass 1 (snap two_bodies)) by (unfold ld, rd; simpl; lra).
  split; [exact Hmi|]. split; [exact Hmj|].
  exact (pair_acceleration_bounded 0 1 (snap two_bodies) Hmi Hmj).
Defined.

(** X15, the kick of a time step: in exact arithmetic, with no negative
    mass, a time step changes the velocity of a particle of nonzero mass
    by at most 10 times the mass of the other particles on every axis,
    wherever the particles are. *)
Theorem velocity_change_bounded (num i : nat) (m : mem R) :
  wf num m -> (i < num)%nat -> ld a_mass i m <> 0 ->
  (forall j, (j < num)%nat -> 0 <= ld a_mass j m) ->
  components_within (10 * mass_of_others num i m)
    (Spec.vsub (velocity i (timestep num m)) (velocity i m)).
Proof.
  intros Hwf Hi Hmi Hpos. rewrite velocity_change by assumption.
  unfold mass_of_others. rewrite <- sum_scale.
  apply components_within_vsum. intros j Hj.
  apply list_elem_of_In, elem_of_others in Hj. destruct Hj as [_ Hj].
  change (ld a_mass j m) with (ld a_old_mass j (snap m)).
  apply pair_accel_within; [exact Hmi | apply (Hpos j Hj)].
Qed.

Lemma velocity_change_bounded_witness :
  wf 2 two_bodies /\ (0 < 2)%nat /\ ld a_mass 0 two_bodies <> 0 /\
  (forall j, (j < 2)%nat -> 0 <= ld a_mass j two_bodies) /\
  components_within (10 * mass_of_others 2 0 two_bodies)
    (Spec.vsub (velocity 0 (timestep 2 two_bodies)) (velocity 0 two_bodies)).
Proof.
  assert (Hwf : wf 2 two_bodies) by (intros a; destruct a; reflexivity).
  assert (Hi : (0 < 2)%nat) by lia.
  assert (Hmi : ld a_mass 0 two_bodies <> 0) by (unfold ld, rd; simpl; lra).
  assert (Hpos : forall j, (j < 2)%nat -> 0 <= ld a_mass j two_bodies).
  { intros j Hj. destruct j as [|[|j]]; [| |lia]; unfold ld, rd; simpl; lra. }
  split; [exact Hwf|]. split; [exact Hi|]. split; [exact Hmi|]. split; [exact Hpos|].
  exact (velocity_change_bounded 2 0 two_bodies Hwf Hi Hmi Hpos).
Defined.

(** X16, momentum and the centre of mass of [num] particles: in exact
    arithmetic, with no mass zero, the time steps keep the momentum of the
    system, and the centre of mass that [calc_centre_mass] computes moves
    by the same vector at every step: after [t] steps it is where it was
    plus [t / totalMass] times the momentum.  With no momentum it stays
    where it is. *)
Theorem centre_of_mass_moves_uniformly (num t : nat) (m : mem R) (com : vec3 R)
    (totalMass : R) :
  wf num m -> (forall i, (i < num)%nat -> ld a_mass i m <> 0) ->
  momentum num (timesteps_from num t m) = momentum num m /\
  centre_of (timesteps_from num t m) com totalMass num =
    Spec.vadd (centre_of m com totalMass num)
              (Spec.vscale (INR t / totalMass) (momentum num m)).
Proof.
  intros Hwf Hm.
  assert (H : momentum num (timesteps_from num t m) = momentum num m /\
              weighted_position num (timesteps_from num t m) =
                Spec.vadd (weighted_position num m) (Spec.vscale (INR t) (momentum num m))).
  { induction t as [|t IH].
    - split; [reflexivity|]. change (timesteps_from num 0 m) with m.
      destruct (weighted_position num m) as [[w0 w1] w2], (momentum num m) as [[q0 q1] q2].
      cbn [INR Spec.vscale Spec.vadd]. f_equal; [f_equal|]; ring.
    - destruct IH as [IHm IHp]. rewrite timesteps_from_S.
      destruct (timestep_momentum num (timesteps_from num t m)) as [Hmom Hpos].
      + apply wf_timesteps_from, Hwf.
      + intros i Hi. unfold ld. rewrite timesteps_from_mass. apply Hm, Hi.
      + rewrite Hmom, Hpos, IHm, IHp, S_INR, vscale_plus. split; [reflexivity|].
        rewrite <- vadd_assoc. f_equal. f_equal.
        destruct (momentum num m) as [[q0 q1] q2]. cbn [Spec.vscale].
        f_equal; [f_equal|]; ring. }
  destruct H as [Hmom Hpos]. split; [exact Hmom|].
  rewrite !centre_of_weighted_position, Hpos, vscale_vadd, vscale_vscale.
  f_equal. f_equal. unfold Rdiv. ring.
Qed.

Lemma centre_of_mass_moves_uniformly_witness :
  wf 2 two_bodies_boosted /\
  (forall i, (i < 2)%nat -> ld a_mass i two_bodies_boosted <> 0) /\
  momentum 2 (timesteps_from 2 10 two_bodies_boosted) = momentum 2 two_bodies_boosted /\
  centre_of (timesteps_from 2 10 two_bodies_boosted) (0, 0, 0) 5 2 =
    Spec.vadd (centre_of two_bodies_boosted (0, 0, 0) 5 2)
              (Spec.vscale (INR 10 / 5) (momentum 2 two_bodies_boosted)).
Proof.
  assert (Hwf : wf 2 two_bodies_boosted) by (intros a; destruct a; reflexivity).
  assert (Hm : forall i, (i < 2)%nat -> ld a_mass i two_bodies_boosted <> 0).
  { intros i Hi. destruct i as [|[|i]]; [| |lia]; unfold ld, rd; simpl; lra. }
  split; [exact Hwf|]. split; [exact Hm|].
  exact (centre_of_mass_moves_uniformly 2 10 two_bodies_boosted (0, 0, 0) 5 Hwf Hm).
Defined.

(** X17, angular momentum: in exact arithmetic, with no mass zero, the
    time steps keep the angular momentum of the system about the origin,
    softened forces and updated positions included. *)
Theorem angular_momentum_conserved (num t : nat) (m : mem R) :
  wf num m -> (forall i, (i < num)%nat -> ld a_mass i m <> 0) ->
  angular_momentum num (timesteps_from num t m) = angular_momentum num m.
Proof.
  intros Hwf Hm. induction t as [|t IH]; [reflexivity|].
  rewrite timesteps_from_S, timestep_angular_momentum; [exact IH | |].
  - apply wf_timesteps_from, Hwf.
  - intros i Hi. unfold ld. rewrite timesteps_from_mass. apply Hm, Hi.
Qed.

Lemma angular_momentum_conserved_witness :
  wf 2 two_bodies_boosted /\
  (forall i, (i < 2)%nat -> ld a_mass i two_bodies_boosted <> 0) /\
  angular_momentum 2 (timesteps_from 2 10 two_bodies_boosted) =
    angular_momentum 2 two_bodies_boosted.
Proof.
  assert (Hwf : wf 2 two_bodies_boosted) by (intros a; destruct a; reflexivity).
  assert (Hm : forall i, (i < 2)%nat -> ld a_mass i two_bodies_boosted <> 0).
  { intros i Hi. destruct i as [|[|i]]; [| |lia]; unfold ld, rd; simpl; lra. }
  split; [exact Hwf|]. split; [exact Hm|].
  exact (angular_momentum_conserved 2 10 two_bodies_boosted Hwf Hm).
Defined.

(** X18, frames of reference: in exact arithmetic a time step treats all
    frames alike (Galilean invariance).  If two systems differ by a
    displacement [c] and a velocity [u] common to all particles, then
    after one time step they differ by the displacement [c + u] and the
    same velocity [u]. *)
Theorem timestep_galilean_invariant (c u : vec3 R) (num : nat) (m m' : mem R) :
  wf num m -> wf num m' -> boosted c u num m m' ->
  boosted (Spec.vadd c u) u num (timestep num m) (timestep num m').
Proof.
  intros Hwf Hwf' H i Hi.
  destruct (timestep_particle num m i Hwf Hi) as [Hv Hp].
  destruct (timestep_particle num m' i Hwf' Hi) as [Hv' Hp'].
  rewrite Hv, Hv', Hp, Hp', !stepped_position_spec, !stepped_velocity_spec.
  unfold Spec.new_position, Spec.new_velocity.
  rewrite (net_acceleration_boosted c u num m m' i H Hi).
  destruct (H i Hi) as (Hpi & Hvi & Hmi). rewrite Hpi, Hvi.
  set (acc := Spec.net_acceleration _ _ _ _ _ _). clearbody acc.
  split; [|split].
  - destruct (position i m) as [[p0 p1] p2], (velocity i m) as [[v0 v1] v2],
      c as [[c0 c1] c2], u as [[u0 u1] u2], acc as [[a0 a1] a2].
    cbn [Spec.vadd]. f_equal; [f_equal|]; ring.
  - destruct (velocity i m) as [[v0 v1] v2], u as [[u0 u1] u2], acc as [[a0 a1] a2].
    cbn [Spec.vadd]. f_equal; [f_equal|]; ring.
  - unfold ld. rewrite !timestep_mass. exact Hmi.
Qed.

Lemma timestep_galilean_invariant_witness :
  wf 2 two_bodies /\ wf 2 two_bodies_boosted /\
  boosted (5, 0, 0) (1, 0, 0) 2 two_bodies two_bodies_boosted /\
  boosted (Spec.vadd (5, 0, 0) (1, 0, 0)) (1, 0, 0) 2
    (timestep 2 two_bodies) (timestep 2 two_bodies_boosted).
Proof.
  assert (Hwf : wf 2 two_bodies) by (intros a; destruct a; reflexivity).
  assert (Hwf' : wf 2 two_bodies_boosted) by (intros a; destruct a; reflexivity).
  assert (Hb : boosted (5, 0, 0) (1, 0, 0) 2 two_bodies two_bodies_boosted).
  { intros i Hi. destruct i as [|[|i]]; [| |lia];
      unfold position, velocity, ld, rd; cbn;
      (split; [|split]); try reflexivity; (f_equal; [f_equal|]); lra. }
  split; [exact Hwf|]. split; [exact Hwf'|]. split; [exact Hb|].
  exact (timestep_galilean_invariant (5, 0, 0) (1, 0, 0) 2 two_bodies two_bodies_boosted
           Hwf Hwf' Hb).
Defined.
